(** * The LaunchDarkly bridge of the Strudel REPL

    A shallow embedding of [website/src/repl/launchdarkly.mjs]: the flag
    store, the scalar bridge [flag], the layering transform [polySpeed],
    the three parameter-bundle merges [drumKit], [bassSound] and
    [leadSound], the boolean gate [toggle], the tempo synchronizer
    [setcpmFlag] and the cached variant selector [getLeadArrangement].

    Conventions of the embedding.
    - JavaScript values are the closed type [JsValue]; numbers are IEEE
      doubles ([PrimFloat.float]).
    - A JavaScript object used as a dictionary (the flag store, an event
      payload, the variation registry, the argument of a 'change' callback)
      is a finite map of its own properties; a read [obj[key]] with a
      computed key finds the own property or the member that a plain object
      inherits from [Object.prototype] ([plain_get]).  The order of the keys
      is not part of the model.  The listener registry is a [Map] and
      inherits nothing.
    - The objects that the provider hands over (the snapshot of 'ready',
      the argument of 'change') are maps from flag keys; the name
      [__proto__], which an assignment [obj[key] = v] hands to the accessor
      of [Object.prototype] instead of making a member, is not a flag key.
    - An operation that throws in JavaScript (a member of [null], a
      conversion of an object without usable [valueOf] and [toString], a
      call of something that is not a function) returns [Throw].
    - A pattern is its [query] function.  A query either returns the list
      of its events or throws.
    - Closures that keep mutable variables ([cachedValue], [cachedPattern],
      [cachedVariationKey]) become explicit cache records that a query
      receives and returns; console output and calls to foreign functions are
      collected in a list of [Effect]s.
    - The module-level variables [ldClient], [flags] and [tempoListeners]
      are the fields of the record [World]. *)

From Stdlib Require Import Floats.PrimFloat Floats.FloatOps Floats.SpecFloat Strings.Ascii.
From Stdlib Require Import QArith.QArith_base QArith.Qround QArith.Qreduction.
From stdpp Require Import gmap strings list fin_maps pretty.

Set Warnings "-register-all,-inexact-float".
Local Open Scope string_scope.
Local Open Scope list_scope.

(* ===================================================================== *)
(** ** JavaScript values                                                  *)
(* ===================================================================== *)

Inductive JsValue :=
| JUndefined
| JNull
| JBool (b : bool)
| JNum (x : float)
| JStr (s : string)
| JArr (xs : list JsValue)
| JObj (props : gmap string JsValue)
(** a built-in function, named by the member of [Object.prototype] that
    holds it *)
| JFun (name : string).

Inductive JsError :=
| TypeError (msg : string).

(** The outcome of a computation that may throw. *)
Inductive Res (A : Type) :=
| Ok (a : A)
| Throw (e : JsError).
Arguments Ok {A} a.
Arguments Throw {A} e.

Definition res_bind {A B} (r : Res A) (k : A -> Res B) : Res B :=
  match r with
  | Ok a => k a
  | Throw e => Throw e
  end.

(** [Array.prototype.map] with a callback that may throw: the first
    exception aborts the traversal. *)
Fixpoint res_map {A B} (f : A -> Res B) (l : list A) : Res (list B) :=
  match l with
  | [] => Ok []
  | a :: l' =>
      res_bind (f a) (fun b => res_bind (res_map f l') (fun bs => Ok (b :: bs)))
  end.

(** [a ?? b] *)
Definition nullish (v : JsValue) : bool :=
  match v with
  | JUndefined | JNull => true
  | _ => false
  end.

Definition coalesce (a b : JsValue) : JsValue :=
  if nullish a then b else a.

(** A formal parameter with a default initialiser, [p = d]: the initialiser
    is used when the argument is [undefined]. *)
Definition param_default (arg d : JsValue) : JsValue :=
  match arg with
  | JUndefined => d
  | _ => arg
  end.

(** ToBoolean. *)
Definition truthy (v : JsValue) : bool :=
  match v with
  | JUndefined | JNull => false
  | JBool b => b
  | JNum x => negb (PrimFloat.eqb x 0) && negb (PrimFloat.is_nan x)
  | JStr s => negb (String.eqb s EmptyString)
  | JArr _ | JObj _ | JFun _ => true
  end.

(** The decimal spelling of an array index, as a property key. *)
Definition index_key (i : nat) : string := pretty i.

(** The own enumerable properties of a value, as the spread [{...v}] and a
    rest pattern [{..., ...rest} = v] copy them: the properties of an
    object, the indexed elements of an array, the indexed characters of a
    string, nothing for the other primitives. *)
Definition own_props (v : JsValue) : gmap string JsValue :=
  match v with
  | JObj props => props
  | JArr xs => list_to_map (imap (fun i x => (index_key i, x)) xs)
  | JStr s =>
      list_to_map
        (imap (fun i c => (index_key i, JStr (String c EmptyString)))
           (String.list_ascii_of_string s))
  | _ => ∅
  end.

(** [v.name] for one of the names the bridge reads ([bank], [sound], [lpf],
    [lpq], [gain]): none of them is inherited by a primitive, an array or a
    plain object, so the member is the own property or [undefined].  The
    receiver is not nullish (that case throws, see the callers). *)
Definition member (v : JsValue) (name : string) : JsValue :=
  default JUndefined (own_props v !! name).

(** The methods of [Object.prototype], which every plain object inherits. *)
Definition object_prototype_functions : list string :=
  ["constructor"; "toString"; "toLocaleString"; "valueOf"; "hasOwnProperty";
   "isPrototypeOf"; "propertyIsEnumerable"; "__defineGetter__";
   "__defineSetter__"; "__lookupGetter__"; "__lookupSetter__"].

(** What a read of [name] finds on [Object.prototype]: one of its methods,
    or, for the accessor [__proto__], the prototype object itself, which has
    no enumerable member. *)
Definition inherited (name : string) : option JsValue :=
  if bool_decide (name ∈ object_prototype_functions) then Some (JFun name)
  else if String.eqb name "__proto__" then Some (JObj ∅)
  else None.

(** [obj[name]] for a plain object with the own properties [props]. *)
Definition plain_get (props : gmap string JsValue) (name : string) : JsValue :=
  match props !! name with
  | Some v => v
  | None => default JUndefined (inherited name)
  end.

(** The parts of the host language that the bridge calls and that are not
    modelled here. *)
Class Host := {
  (** [JSON.parse]; [None] when it throws a [SyntaxError] *)
  JSON_parse : string -> option JsValue;
  (** the global [parseFloat], applied to a string *)
  parseFloat : string -> float;
  (** ToNumber of a string *)
  StringToNumber : string -> float;
  (** ToNumber of an array or an object; it throws a [TypeError] when
      neither [valueOf] nor [toString] of the object can be called *)
  ObjectToNumber : JsValue -> Res float;
  (** ToString, as ToPropertyKey and a template literal use it on a value
      that is not a string; it throws on the same objects *)
  ToString : JsValue -> Res string;
  (** [===] on two arrays or objects: are they the same reference? *)
  SameReference : JsValue -> JsValue -> bool;
  (** the call [f()] of the method [f] of [Object.prototype], without
      receiver and without argument *)
  CallBuiltin : string -> Res JsValue }.

Section Values.
Context {H : Host}.

(** ToNumber.  A function is converted through the text of its source,
    which is not a numeral. *)
Definition to_number (v : JsValue) : Res float :=
  match v with
  | JUndefined => Ok PrimFloat.nan
  | JNull => Ok 0%float
  | JBool b => Ok (if b then 1%float else 0%float)
  | JNum x => Ok x
  | JStr s => Ok (StringToNumber s)
  | JArr _ | JObj _ => ObjectToNumber v
  | JFun _ => Ok PrimFloat.nan
  end.

(** The values whose conversion to a number is fixed by the language. *)
Definition is_primitive (v : JsValue) : bool :=
  match v with
  | JArr _ | JObj _ => false
  | _ => true
  end.

(** [a * b] and [a / b]: the left operand is converted first. *)
Definition js_mul (a b : JsValue) : Res JsValue :=
  res_bind (to_number a) (fun x =>
  res_bind (to_number b) (fun y => Ok (JNum (PrimFloat.mul x y)))).

Definition js_div (a b : JsValue) : Res JsValue :=
  res_bind (to_number a) (fun x =>
  res_bind (to_number b) (fun y => Ok (JNum (PrimFloat.div x y)))).

(** [a === b] *)
Definition strict_eq (a b : JsValue) : bool :=
  match a, b with
  | JUndefined, JUndefined => true
  | JNull, JNull => true
  | JBool x, JBool y => Bool.eqb x y
  | JNum x, JNum y => PrimFloat.eqb x y
  | JStr x, JStr y => String.eqb x y
  | JArr _, JArr _ | JObj _, JObj _ => SameReference a b
  | JFun x, JFun y => String.eqb x y
  | _, _ => false
  end.

(** ToPropertyKey, for [obj[v]], and the conversion of [${v}]. *)
Definition property_key (v : JsValue) : Res string :=
  match v with
  | JStr s => Ok s
  | _ => ToString v
  end.

End Values.

(* ===================================================================== *)
(** ** The pattern engine boundary                                        *)
(* ===================================================================== *)

Record TimeSpan := { begin : Q; end_ : Q }.

(** A timed event. *)
Record Hap := { whole : option TimeSpan; part : TimeSpan; value : JsValue }.

(** The argument of a query. *)
Record State := { span : TimeSpan }.

(** A pattern, as its [query] method. *)
Definition Pattern : Type := State -> Res (list Hap).

(** The event [hap] with another payload. *)
Definition with_value (hap : Hap) (v : JsValue) : Hap :=
  {| whole := whole hap; part := part hap; value := v |}.

(** [hap.withValue(f)] *)
Definition hap_withValue (f : JsValue -> Res JsValue) (hap : Hap) : Res Hap :=
  res_bind (f (value hap)) (fun v => Ok (with_value hap v)).

(** [pat.withHap(f)]: the events of [pat], each one passed through [f]. *)
Definition withHap (f : Hap -> Res Hap) (pat : Pattern) : Pattern :=
  fun state => res_bind (pat state) (res_map f).

(** [pat.withValue(f)] *)
Definition withValue (f : JsValue -> Res JsValue) (pat : Pattern) : Pattern :=
  withHap (hap_withValue f) pat.

(** The primitives of [@strudel/core] and [@strudel/mini] that the bridge
    imports. *)
Class Engine := {
  (** [pure(value)]: the constant-valued pattern *)
  pure : JsValue -> Pattern;
  (** [mini(src)]: the parsed mini-notation; [None] when the parser throws *)
  mini : string -> option Pattern;
  (** [stack(...pats)] *)
  stack : list Pattern -> Pattern;
  (** [pat._fast(factor)] *)
  fast : JsValue -> Pattern -> Pattern }.

(** What a query does besides returning events. *)
Inductive Effect :=
| ConsoleError (msg : string)
| ConsoleWarn (msg : string)
| CallMini (src : string)
| CallFactory (name : string)
| CallSetcpm (cpm : JsValue)
| CallSetCpm (cpm : JsValue)
(** an exception that a callback lets escape into the provider *)
| Uncaught (e : JsError).

(* ===================================================================== *)
(** ** The flag store                                                     *)
(* ===================================================================== *)

(** [flags[key]]: [flags] is a plain object. *)
Definition flags_get (flags : gmap string JsValue) (key : string) : JsValue :=
  plain_get flags key.

(** [flags[key] ?? defaultValue], the read every bridge starts with. *)
Definition read_flag (flags : gmap string JsValue) (key : string)
    (defaultValue : JsValue) : JsValue :=
  coalesce (flags_get flags key) defaultValue.

(* ===================================================================== *)
(** ** The bridges                                                        *)
(* ===================================================================== *)

(** The characters of the class [[<>\[\]*!@,]]. *)
Definition mini_chars : list Ascii.ascii :=
  ["<"; ">"; "["; "]"; "*"; "!"; "@"; ","]%char.

Definition has_mini_char (s : string) : bool :=
  existsb (fun c => existsb (Ascii.eqb c) mini_chars) (String.list_ascii_of_string s).

Definition hasMiniNotation (value : JsValue) : bool :=
  match value with
  | JStr s => has_mini_char s
  | _ => false
  end.

Section Bridges.
Context {H : Host} {E : Engine}.

(** *** flag *)

(** The two variables a call of [flag] closes over; [None] is [null]. *)
Record FlagCache := {
  cachedValue : option string;
  cachedPattern : option Pattern }.

Definition flag_new : FlagCache :=
  {| cachedValue := None; cachedPattern := None |}.

Definition flag_parse_error (key : string) : string :=
  ("[LaunchDarkly] Failed to parse mini-notation for flag '" ++ key ++ "':")%string.

(** [cachedPattern.query(state)] *)
Definition query_cached (p : option Pattern) (state : State) : Res (list Hap) :=
  match p with
  | Some pat => pat state
  | None => Throw (TypeError "Cannot read properties of null (reading 'query')")
  end.

(** The body of the query, after the read of the flag. *)
Definition flag_on (key : string) (value : JsValue) (c : FlagCache)
    (state : State) : Res (list Hap) * FlagCache * list Effect :=
  match value with
  | JStr s =>
      if has_mini_char s then
        if bool_decide (cachedValue c = Some s) then
          (query_cached (cachedPattern c) state, c, [])
        else
          match mini s with
          | Some pat =>
              (pat state,
               {| cachedValue := Some s; cachedPattern := Some pat |},
               [CallMini s])
          | None =>
              (pure value state, c,
               [CallMini s; ConsoleError (flag_parse_error key)])
          end
      else (pure value state, c, [])
  | _ => (pure value state, c, [])
  end.

Definition flag (flags : gmap string JsValue) (key : string)
    (defaultValue : JsValue) (c : FlagCache) (state : State)
    : Res (list Hap) * FlagCache * list Effect :=
  flag_on key (read_flag flags key defaultValue) c state.

(** A cache is valid when the string it remembers is one the parser
    accepted and the pattern it remembers is the parser's result. *)
Definition flag_cache_valid (c : FlagCache) : Prop :=
  forall s, cachedValue c = Some s ->
    exists pat, mini s = Some pat /\ cachedPattern c = Some pat.

(** A session of one [flag] pattern: the store at each query, in order.
    The result is the final cache and the effects of all the queries. *)
Fixpoint flag_session (key : string) (defaultValue : JsValue)
    (queries : list (gmap string JsValue * State)) (c : FlagCache)
    : FlagCache * list Effect :=
  match queries with
  | [] => (c, [])
  | (flags, state) :: rest =>
      let '(_, c1, log1) := flag flags key defaultValue c state in
      let '(c2, log2) := flag_session key defaultValue rest c1 in
      (c2, log1 ++ log2)
  end.

(** The sources given to the parser by a list of effects, in order. *)
Definition mini_calls (log : list Effect) : list string :=
  omap (fun e => match e with CallMini src => Some src | _ => None end) log.

(** *** polySpeed *)

Definition polySpeed_on (self : Pattern) (speeds : JsValue) : Pattern :=
  fun state =>
    match speeds with
    | JArr [] => self state
    | JArr xs => stack (map (fun speed => fast speed self) xs) state
    | _ => fast speeds self state
    end.

Definition polySpeed (flags : gmap string JsValue) (self : Pattern)
    (flagKey : string) (defaultValue : JsValue) : Pattern :=
  polySpeed_on self
    (read_flag flags flagKey (param_default defaultValue (JNum 1))).

(** *** toggle *)

Definition toggle_on (self : Pattern) (enabled : JsValue) : Pattern :=
  fun state => if truthy enabled then self state else Ok [].

Definition toggle (flags : gmap string JsValue) (self : Pattern)
    (flagKey : string) (defaultValue : JsValue) : Pattern :=
  toggle_on self
    (read_flag flags flagKey (param_default defaultValue (JBool true))).

(** *** drumKit, bassSound, leadSound *)

(** The decoding step of the merges: a textual value is given to
    [JSON.parse] and kept as it is when that throws. *)
Definition parse_if_string (flagValue : JsValue) : JsValue :=
  match flagValue with
  | JStr s =>
      match JSON_parse s with
      | Some v => v
      | None => flagValue
      end
  | _ => flagValue
  end.

(** A destructured field with a default, [{ name = d } = v]. *)
Definition field_default (v : JsValue) (name : string) (d : JsValue) : JsValue :=
  param_default (member v name) d.

(** The rest of a destructuring, [{ n1, n2, ...rest } = v]. *)
Definition rest_props (v : JsValue) (names : list string) : gmap string JsValue :=
  foldr (fun name props => delete name props) (own_props v) names.

Definition destructure_error : JsError :=
  TypeError "Cannot destructure the flag value as it is null".

Definition payload_error : JsError :=
  TypeError "Cannot read properties of undefined (reading 'gain')".

(** [(v.gain ?? 1) * gain] *)
Definition merged_gain (v gain : JsValue) : Res JsValue :=
  js_mul (coalesce (member v "gain") (JNum 1)) gain.

(** [if (x !== undefined) newValue.name = x] *)
Definition set_defined (name : string) (x : JsValue)
    (newValue : gmap string JsValue) : gmap string JsValue :=
  match x with
  | JUndefined => newValue
  | _ => <[name := x]> newValue
  end.

Definition drumKit_default : JsValue :=
  JObj (<["bank" := JStr "RolandTR808"]> (<["gain" := JNum 1]> ∅)).

(** [{ ...v, ...effects, bank, gain: product }], where [product] is the
    value of [(v.gain ?? 1) * gain] *)
Definition drumKit_value (bank product : JsValue) (effects : gmap string JsValue)
    (v : JsValue) : gmap string JsValue :=
  <["gain" := product]> (<["bank" := bank]> (effects ∪ own_props v)).

(** [{ ...v, ...otherEffects, s: sound, gain: product }], where [product]
    is the value of [(v.gain ?? 1) * gain] *)
Definition sound_value (sound product : JsValue) (otherEffects : gmap string JsValue)
    (v : JsValue) : gmap string JsValue :=
  <["gain" := product]> (<["s" := sound]> (otherEffects ∪ own_props v)).

Definition drumKit_hap_on (flagValue : JsValue) (hap : Hap) : Res Hap :=
  let parsedValue := parse_if_string flagValue in
  if nullish parsedValue then Throw destructure_error else
  let bank := field_default parsedValue "bank" (JStr "RolandTR808") in
  let gain := field_default parsedValue "gain" (JNum 1) in
  let effects := rest_props parsedValue ["bank"; "gain"] in
  hap_withValue
    (fun v =>
       if nullish v then Throw payload_error else
       res_bind (merged_gain v gain) (fun product =>
       Ok (JObj (drumKit_value bank product effects v))))
    hap.

Definition drumKit_hap (flags : gmap string JsValue) (flagKey : string)
    (defaultValue : JsValue) (hap : Hap) : Res Hap :=
  drumKit_hap_on
    (read_flag flags flagKey (param_default defaultValue drumKit_default)) hap.

Definition drumKit (flags : gmap string JsValue) (self : Pattern)
    (flagKey : string) (defaultValue : JsValue) : Pattern :=
  withHap (drumKit_hap flags flagKey defaultValue) self.

Definition bassSound_default : JsValue :=
  JObj (<["sound" := JStr "gm_synth_bass_2"]>
          (<["lpf" := JNum 1800]> (<["gain" := JNum 1]> ∅))).

Definition bassSound_hap_on (flagValue : JsValue) (hap : Hap) : Res Hap :=
  let parsedValue := parse_if_string flagValue in
  if nullish parsedValue then Throw destructure_error else
  let sound := field_default parsedValue "sound" (JStr "gm_synth_bass_2") in
  let lpf := member parsedValue "lpf" in
  let gain := field_default parsedValue "gain" (JNum 1) in
  let otherEffects := rest_props parsedValue ["sound"; "lpf"; "gain"] in
  hap_withValue
    (fun v =>
       if nullish v then Throw payload_error else
       res_bind (merged_gain v gain) (fun product =>
       let newValue := sound_value sound product otherEffects v in
       Ok (JObj (set_defined "lpf" lpf newValue))))
    hap.

Definition bassSound_hap (flags : gmap string JsValue) (flagKey : string)
    (defaultValue : JsValue) (hap : Hap) : Res Hap :=
  bassSound_hap_on
    (read_flag flags flagKey (param_default defaultValue bassSound_default)) hap.

Definition bassSound (flags : gmap string JsValue) (self : Pattern)
    (flagKey : string) (defaultValue : JsValue) : Pattern :=
  withHap (bassSound_hap flags flagKey defaultValue) self.

Definition leadSound_default : JsValue :=
  JObj (<["sound" := JStr "sawtooth"]>
          (<["lpf" := JNum 300]>
             (<["lpq" := JNum 0]> (<["gain" := JNum 1]> ∅)))).

Definition leadSound_hap_on (flagValue : JsValue) (hap : Hap) : Res Hap :=
  let parsedValue := parse_if_string flagValue in
  if nullish parsedValue then Throw destructure_error else
  let sound := field_default parsedValue "sound" (JStr "sawtooth") in
  let lpf := member parsedValue "lpf" in
  let lpq := member parsedValue "lpq" in
  let gain := field_default parsedValue "gain" (JNum 1) in
  let otherEffects := rest_props parsedValue ["sound"; "lpf"; "lpq"; "gain"] in
  hap_withValue
    (fun v =>
       if nullish v then Throw payload_error else
       res_bind (merged_gain v gain) (fun product =>
       let newValue := sound_value sound product otherEffects v in
       Ok (JObj (set_defined "lpq" lpq (set_defined "lpf" lpf newValue)))))
    hap.

Definition leadSound_hap (flags : gmap string JsValue) (flagKey : string)
    (defaultValue : JsValue) (hap : Hap) : Res Hap :=
  leadSound_hap_on
    (read_flag flags flagKey (param_default defaultValue leadSound_default)) hap.

Definition leadSound (flags : gmap string JsValue) (self : Pattern)
    (flagKey : string) (defaultValue : JsValue) : Pattern :=
  withHap (leadSound_hap flags flagKey defaultValue) self.

(** *** getLeadArrangement *)

(** What an entry of [variations] can hold and what a factory can return:
    a pattern, or a value without a [query] method. *)
Inductive LeadValue :=
| LPattern (pat : Pattern)
| LOther (v : JsValue).

(** An own entry of the [variations] object: a function, which may throw
    when it is called, or a value that is not a function. *)
Inductive Variation :=
| VFunction (patternFactory : unit -> Res LeadValue)
| VValue (x : LeadValue).

(** The two variables a call of [getLeadArrangement] closes over; the
    second is its [cachedPattern]. *)
Record LeadCache := {
  cachedVariationKey : JsValue;
  cachedLeadPattern : LeadValue }.

Definition lead_new : LeadCache :=
  {| cachedVariationKey := JNull; cachedLeadPattern := LOther JNull |}.

(** What [variations] inherits under [name] when it is a plain object: a
    method of [Object.prototype], whose call returns no pattern, or the
    prototype object. *)
Definition inherited_variation (name : string) : option Variation :=
  match inherited name with
  | Some (JFun f) =>
      Some (VFunction (fun _ => res_bind (CallBuiltin f) (fun v => Ok (LOther v))))
  | Some v => Some (VValue (LOther v))
  | None => None
  end.

(** [variations[name]]; [None] is [undefined]. *)
Definition variations_get (variations : gmap string Variation) (name : string)
    : option Variation :=
  match variations !! name with
  | Some entry => Some entry
  | None => inherited_variation name
  end.

(** Is [variations[name]] null or undefined, and is it truthy? *)
Definition entry_nullish (entry : option Variation) : bool :=
  match entry with
  | None => true
  | Some (VValue (LOther v)) => nullish v
  | Some _ => false
  end.

Definition entry_truthy (entry : option Variation) : bool :=
  match entry with
  | None => false
  | Some (VValue (LOther v)) => truthy v
  | Some _ => true
  end.

(** The entry that passes the guard [if (!patternFactory)], with the name
    under which it was found. *)
Definition found_variation (name : string) (entry : option Variation)
    : option (string * Variation) :=
  match entry with
  | Some x => if entry_truthy entry then Some (name, x) else None
  | None => None
  end.

(** [variations[variationKey] ?? variations[defaultVariation]], as far as
    the guard lets it through.  The default name is converted to a property
    key only when the first read is null or undefined. *)
Definition lookup_variation (variations : gmap string Variation)
    (variationKey defaultVariation : JsValue)
    : Res (option (string * Variation)) :=
  res_bind (property_key variationKey) (fun name =>
    let own := variations_get variations name in
    if entry_nullish own then
      res_bind (property_key defaultVariation) (fun dname =>
        Ok (found_variation dname (variations_get variations dname)))
    else Ok (found_variation name own)).

Definition no_variation_message (name dname : string) : string :=
  ("[LaunchDarkly] No variation found for '" ++ name
     ++ "' or default '" ++ dname ++ "'")%string.

(** The template literal of the warning converts both values to text. *)
Definition no_variation_warning (variationKey defaultVariation : JsValue)
    : Res string :=
  res_bind (property_key variationKey) (fun name =>
  res_bind (property_key defaultVariation) (fun dname =>
    Ok (no_variation_message name dname))).

(** [cachedPattern.query(state)] on what the selector has cached *)
Definition query_lead (x : LeadValue) (state : State) : Res (list Hap) :=
  match x with
  | LPattern pat => pat state
  | LOther _ => Throw (TypeError "cachedPattern.query is not a function")
  end.

(** The body of the query, after the read of the flag.  On a change of the
    selection the new key is stored before the factory is called, so a
    factory that throws leaves the new key with the pattern cached before. *)
Definition getLeadArrangement_on (variationKey defaultVariation : JsValue)
    (variations : gmap string Variation) (c : LeadCache) (state : State)
    : Res (list Hap) * LeadCache * list Effect :=
  match lookup_variation variations variationKey defaultVariation with
  | Throw e => (Throw e, c, [])
  | Ok None =>
      match no_variation_warning variationKey defaultVariation with
      | Ok msg => (Ok [], c, [ConsoleWarn msg])
      | Throw e => (Throw e, c, [])
      end
  | Ok (Some (name, entry)) =>
      if strict_eq variationKey (cachedVariationKey c) then
        (query_lead (cachedLeadPattern c) state, c, [])
      else
        match entry with
        | VFunction patternFactory =>
            match patternFactory tt with
            | Ok x =>
                (query_lead x state,
                 {| cachedVariationKey := variationKey; cachedLeadPattern := x |},
                 [CallFactory name])
            | Throw e =>
                (Throw e,
                 {| cachedVariationKey := variationKey;
                    cachedLeadPattern := cachedLeadPattern c |},
                 [CallFactory name])
            end
        | VValue x =>
            (query_lead x state,
             {| cachedVariationKey := variationKey; cachedLeadPattern := x |},
             [])
        end
  end.

Definition getLeadArrangement (flags : gmap string JsValue) (flagKey : string)
    (defaultVariation : JsValue) (variations : gmap string Variation)
    (c : LeadCache) (state : State) : Res (list Hap) * LeadCache * list Effect :=
  getLeadArrangement_on (read_flag flags flagKey defaultVariation)
    defaultVariation variations c state.

(** A session of a selector: the store at each query, in order.  The result
    is the final cache and the effects of all the queries. *)
Fixpoint lead_session (flagKey : string) (defaultVariation : JsValue)
    (variations : gmap string Variation)
    (queries : list (gmap string JsValue * State)) (c : LeadCache)
    : LeadCache * list Effect :=
  match queries with
  | [] => (c, [])
  | (flags, state) :: rest =>
      let '(_, c1, log1) :=
        getLeadArrangement flags flagKey defaultVariation variations c state in
      let '(c2, log2) :=
        lead_session flagKey defaultVariation variations rest c1 in
      (c2, (log1 ++ log2)%list)
  end.

(** The selections that have to be built when the names [names] are
    selected one after the other, starting with [cached] in the cache: each
    name that differs from the one selected just before it. *)
Fixpoint selections_built (cached : JsValue) (names : list string) : list string :=
  match names with
  | [] => []
  | name :: rest =>
      ((if strict_eq (JStr name) cached then [] else [name])
         ++ selections_built (JStr name) rest)%list
  end.

(** The names of the factories a list of effects invoked, in order. *)
Definition factory_calls (log : list Effect) : list string :=
  omap (fun e => match e with CallFactory name => Some name | _ => None end) log.

(** *** The module state: initLaunchDarkly and setcpmFlag *)

(** The closure [listener] that a call of [setcpmFlag] makes: it runs the
    [applyTempo] of that call, which refers to the call's arguments. *)
Record TempoListener := {
  tl_flagKey : string;
  tl_defaultValue : JsValue;
  tl_divisor : JsValue }.

(** The callbacks given to [ldClient.on]. *)
Inductive Handler :=
| OnReady                          (* initLaunchDarkly, on 'ready' *)
| OnChangeStore                    (* initLaunchDarkly, on 'change' *)
| OnFailed                         (* initLaunchDarkly, on 'failed' *)
| OnChangeTempo (l : TempoListener). (* setcpmFlag, on 'change' *)

(** The state of the promise that [initLaunchDarkly] constructs. *)
Inductive PromiseState :=
| Pending
| Resolved
| Rejected (err : JsValue).

Record World := {
  (** [ldClient]: [None] while it is undefined, otherwise the callbacks
      registered on the client, in the order of registration *)
  ldClient : option (list Handler);
  flags : gmap string JsValue;
  tempoListeners : gmap string TempoListener;
  (** the promise of the call that created the client *)
  initPromise : option PromiseState;
  (** [typeof globalThis.setcpm === 'function'], and the same for [setCpm] *)
  global_setcpm : bool;
  global_setCpm : bool;
  (** what has been printed and called so far *)
  effects : list Effect }.

Definition set_ldClient (x : option (list Handler)) (w : World) : World :=
  {| ldClient := x; flags := flags w; tempoListeners := tempoListeners w;
     initPromise := initPromise w; global_setcpm := global_setcpm w;
     global_setCpm := global_setCpm w; effects := effects w |}.

Definition set_flags (x : gmap string JsValue) (w : World) : World :=
  {| ldClient := ldClient w; flags := x; tempoListeners := tempoListeners w;
     initPromise := initPromise w; global_setcpm := global_setcpm w;
     global_setCpm := global_setCpm w; effects := effects w |}.

Definition set_tempoListeners (x : gmap string TempoListener) (w : World) : World :=
  {| ldClient := ldClient w; flags := flags w; tempoListeners := x;
     initPromise := initPromise w; global_setcpm := global_setcpm w;
     global_setCpm := global_setCpm w; effects := effects w |}.

Definition set_initPromise (x : option PromiseState) (w : World) : World :=
  {| ldClient := ldClient w; flags := flags w; tempoListeners := tempoListeners w;
     initPromise := x; global_setcpm := global_setcpm w;
     global_setCpm := global_setCpm w; effects := effects w |}.

Definition add_effect (e : Effect) (w : World) : World :=
  {| ldClient := ldClient w; flags := flags w; tempoListeners := tempoListeners w;
     initPromise := initPromise w; global_setcpm := global_setcpm w;
     global_setCpm := global_setCpm w; effects := (effects w ++ [e])%list |}.

Definition add_effects (es : list Effect) (w : World) : World :=
  {| ldClient := ldClient w; flags := flags w; tempoListeners := tempoListeners w;
     initPromise := initPromise w; global_setcpm := global_setcpm w;
     global_setCpm := global_setCpm w; effects := (effects w ++ es)%list |}.

(** The module as it is loaded: no client, an empty store, an empty
    listener registry. *)
Definition initial_world (setcpm setCpm : bool) : World :=
  {| ldClient := None; flags := ∅; tempoListeners := ∅; initPromise := None;
     global_setcpm := setcpm; global_setCpm := setCpm; effects := [] |}.

(** [resolve()] and [reject(err)]: a settled promise stays as it is. *)
Definition settle (s : PromiseState) (w : World) : World :=
  match initPromise w with
  | Some Pending => set_initPromise (Some s) w
  | _ => w
  end.

(** What [initLaunchDarkly] returns: the promise of an [async] function
    that returned at once, or the promise constructed for the new client. *)
Inductive InitResult :=
| AlreadyInitialized
| InitPromise.

(** The callbacks of [initLaunchDarkly], in the order it registers them. *)
Definition init_handlers : list Handler := [OnReady; OnChangeStore; OnFailed].

(** The user key drawn with [Math.random] only reaches the provider and is
    left out. *)
Definition initLaunchDarkly (clientId : string) (w : World) : World * InitResult :=
  match ldClient w with
  | Some _ => (w, AlreadyInitialized)
  | None =>
      (set_initPromise (Some Pending) (set_ldClient (Some init_handlers) w),
       InitPromise)
  end.

(** The value of a key in the argument of a 'change' callback. *)
Record FlagChange := { current : JsValue; previous : JsValue }.

(** What the provider emits; 'ready' carries what [ldClient.allFlags()]
    returns at that moment. *)
Inductive LdEvent :=
| Ready (allFlags : gmap string JsValue)
| Change (settings : gmap string FlagChange)
| Failed (err : JsValue).

Definition getValue_on (value divisor : JsValue) : Res JsValue :=
  let numValue :=
    match value with
    | JStr s => JNum (parseFloat s)
    | _ => value
    end in
  js_div numValue divisor.

Definition getValue (flags : gmap string JsValue) (l : TempoListener)
    : Res JsValue :=
  getValue_on (read_flag flags (tl_flagKey l) (tl_defaultValue l)) (tl_divisor l).

Definition tempo_warning : string :=
  "[LaunchDarkly] setcpm not available - tempo change deferred".

(** The effect of [applyTempo] for a computed [cpm]. *)
Definition tempo_effect (setcpm setCpm : bool) (cpm : JsValue) : Effect :=
  if setcpm then CallSetcpm cpm
  else if setCpm then CallSetCpm cpm
  else ConsoleWarn tempo_warning.

(** [applyTempo()]: the tempo is computed first, so a conversion that throws
    leaves everything as it was. *)
Definition applyTempo (l : TempoListener) (w : World) : Res World :=
  res_bind (getValue (flags w) l) (fun cpm =>
    Ok (add_effect (tempo_effect (global_setcpm w) (global_setCpm w) cpm) w)).

Definition failed_message : string := "[LaunchDarkly] Failed to initialize:".

(** [settings[flagKey]] is truthy: an own entry of the notification is an
    object, and any other key finds what a plain object inherits. *)
Definition change_names (settings : gmap string FlagChange) (flagKey : string)
    : bool :=
  match settings !! flagKey with
  | Some _ => true
  | None =>
      match inherited flagKey with
      | Some v => truthy v
      | None => false
      end
  end.

(** One callback, called for one event. *)
Definition run_handler (ev : LdEvent) (w : World) (h : Handler) : Res World :=
  match h, ev with
  | OnReady, Ready allFlags =>
      Ok (settle Resolved (set_flags (allFlags ∪ flags w) w))
  | OnChangeStore, Change settings =>
      Ok (set_flags ((current <$> settings) ∪ flags w) w)
  | OnFailed, Failed err =>
      Ok (settle (Rejected err) (add_effect (ConsoleError failed_message) w))
  | OnChangeTempo l, Change settings =>
      if change_names settings (tl_flagKey l) then applyTempo l w else Ok w
  | _, _ => Ok w
  end.

(** The provider calls the callbacks of an event one after the other; an
    exception that a callback throws ends the round and escapes into the
    provider. *)
Fixpoint emit (ev : LdEvent) (w : World) (handlers : list Handler) : World :=
  match handlers with
  | [] => w
  | h :: rest =>
      match run_handler ev w h with
      | Ok w' => emit ev w' rest
      | Throw e => add_effect (Uncaught e) w
      end
  end.

(** The provider emits an event: the callbacks run in the order of their
    registration. *)
Definition deliver (ev : LdEvent) (w : World) : World :=
  match ldClient w with
  | Some handlers => emit ev w handlers
  | None => w
  end.

(** The pattern [setcpmFlag] returns. *)
Definition setcpmFlag_pattern : Pattern :=
  withValue (fun _ => Ok (JObj ∅)) (pure (JNum 0)).

(** The registration step of [setcpmFlag]. *)
Definition register_tempo (l : TempoListener) (w : World) : World :=
  match tempoListeners w !! tl_flagKey l with
  | Some _ => w
  | None =>
      let w1 := set_tempoListeners (<[tl_flagKey l := l]> (tempoListeners w)) w in
      match ldClient w1 with
      | Some handlers => set_ldClient (Some (handlers ++ [OnChangeTempo l])%list) w1
      | None => w1
      end
  end.

(** The call returns the next state of the module and the pattern; when
    the first [applyTempo()] throws, nothing has been registered. *)
Definition setcpmFlag (flagKey : string) (defaultValue divisor : JsValue)
    (w : World) : Res (World * Pattern) :=
  let l := {| tl_flagKey := flagKey;
              tl_defaultValue := param_default defaultValue (JNum 100);
              tl_divisor := param_default divisor (JNum 1) |} in
  res_bind (applyTempo l w) (fun w1 =>
    Ok (register_tempo l w1, setcpmFlag_pattern)).

(** What can happen to the module, and a run of such steps.  A call that
    throws leaves the module as it was. *)
Inductive Action :=
| CallInit (clientId : string)
| CallSetcpmFlag (flagKey : string) (defaultValue divisor : JsValue)
| Emit (ev : LdEvent).

Definition step (w : World) (a : Action) : World :=
  match a with
  | CallInit clientId => fst (initLaunchDarkly clientId w)
  | CallSetcpmFlag flagKey defaultValue divisor =>
      match setcpmFlag flagKey defaultValue divisor w with
      | Ok (w', _) => w'
      | Throw _ => w
      end
  | Emit ev => deliver ev w
  end.

Definition run (actions : list Action) (w : World) : World :=
  foldl step w actions.

(** The actions whose code assigns to [flags]: the provider's 'ready' and
    'change' events. *)
Definition writes_store (a : Action) : bool :=
  match a with
  | Emit (Ready _) | Emit (Change _) => true
  | _ => false
  end.

(** The listeners of [setcpmFlag] that are registered on the client. *)
Definition tempo_handlers (w : World) : list TempoListener :=
  match ldClient w with
  | Some handlers =>
      omap (fun h => match h with OnChangeTempo l => Some l | _ => None end) handlers
  | None => []
  end.

(** How many of them belong to a flag key. *)
Definition listener_count (flagKey : string) (w : World) : nat :=
  length (filter (fun l => tl_flagKey l = flagKey) (tempo_handlers w)).

(** The shape of every world that the actions produce from the initial one:
    the client, once created, carries the three callbacks of
    [initLaunchDarkly] followed by tempo listeners of distinct keys, each of
    them the entry of its key in [tempoListeners]; and the promise of the
    initialization exists exactly when the client does. *)
Definition world_wf (w : World) : Prop :=
  match ldClient w with
  | None => initPromise w = None
  | Some handlers =>
      is_Some (initPromise w)
      /\ exists ls,
          handlers = (init_handlers ++ map OnChangeTempo ls)%list
          /\ NoDup (map tl_flagKey ls)
          /\ forall l, l ∈ ls -> tempoListeners w !! tl_flagKey l = Some l
  end.

(** What the tempo listeners [ls] do on a change notification, in a world
    whose store already holds the new values: each listener whose key the
    notification names applies its tempo, until one of them throws. *)
Fixpoint tempo_reactions (settings : gmap string FlagChange) (w : World)
    (ls : list TempoListener) : list Effect :=
  match ls with
  | [] => []
  | l :: rest =>
      if change_names settings (tl_flagKey l) then
        match getValue (flags w) l with
        | Ok cpm =>
            tempo_effect (global_setcpm w) (global_setCpm w) cpm
              :: tempo_reactions settings w rest
        | Throw e => [Uncaught e]
        end
      else tempo_reactions settings w rest
  end.

(** The two factors of the merged gain as the description of the merges
    states them, to be compared with [merged_gain]: the gain the event has,
    1 when it has none, and the gain the bundle gives, 1 when it gives
    none. *)
Definition stated_event_gain (v : JsValue) : JsValue :=
  match own_props v !! "gain" with
  | Some JUndefined | Some JNull | None => JNum 1
  | Some g => g
  end.

Definition stated_bundle_gain (bundle : JsValue) : JsValue :=
  match own_props bundle !! "gain" with
  | Some JUndefined | None => JNum 1
  | Some g => g
  end.

End Bridges.

(* ===================================================================== *)
(** ** A reference engine and host                                        *)
(* ===================================================================== *)

(** The theorems below hold for every [Engine] and every [Host].  The
    instances of this part serve where a concrete query has to be
    evaluated. *)

Module Reference.

(** Modelled from the spec: the cycle arithmetic of the pattern engine
    ([sam], [nextSam], [wholeCycle] of the engine's time and span classes),
    which is not part of the bridge.  Time is an exact fraction, kept in
    lowest terms. *)
Definition sam (t : Q) : Q := inject_Z (Qfloor t).

Definition nextSam (t : Q) : Q := Qred (sam t + 1).

Definition wholeCycle (t : Q) : TimeSpan :=
  {| begin := sam t; end_ := nextSam t |}.

(** Modelled from the spec: the engine's splitting of a query window at the
    cycle boundaries ([spanCycles]); a window of width zero is one piece. *)
Fixpoint spanCycles_from (fuel : nat) (b e : Q) : list TimeSpan :=
  match fuel with
  | O => []
  | S fuel' =>
      if Qle_bool e b then []
      else if Qeq_bool (sam b) (sam e) then [{| begin := b; end_ := e |}]
      else {| begin := b; end_ := nextSam b |} :: spanCycles_from fuel' (nextSam b) e
  end.

Definition spanCycles (sp : TimeSpan) : list TimeSpan :=
  if Qeq_bool (begin sp) (end_ sp) then [sp]
  else
    spanCycles_from (S (Z.to_nat (Qceiling (end_ sp) - Qfloor (begin sp))))
      (begin sp) (end_ sp).

(** Modelled from the spec: the engine's constant-valued pattern [pure]:
    one event per cycle that the query window touches, whose extent is the
    whole cycle and whose payload is the constant. *)
Definition pure (v : JsValue) : Pattern :=
  fun state =>
    Ok (map (fun subspan =>
               {| whole := Some (wholeCycle (begin subspan));
                  part := subspan; value := v |})
          (spanCycles (span state))).

(** Modelled from the spec: the engine's simultaneous union [stack]: the
    events of the patterns for the same window, in the order of the
    patterns. *)
Definition stack (pats : list Pattern) : Pattern :=
  fun state =>
    res_bind (res_map (fun pat : Pattern => pat state) pats)
      (fun haps => Ok (concat haps)).

(** The exact value of a finite double. *)
Definition float_to_Q (x : float) : option Q :=
  match Prim2SF x with
  | S754_zero _ => Some (0 # 1)
  | S754_finite s m e =>
      let q :=
        if (0 <=? e)%Z then inject_Z (Z.pos m * 2 ^ e)
        else Z.pos m # Z.to_pos (2 ^ (- e)) in
      Some (Qred (if s then Qopp q else q))
  | _ => None
  end.

Definition scale_span (f : Q -> Q) (sp : TimeSpan) : TimeSpan :=
  {| begin := f (begin sp); end_ := f (end_ sp) |}.

(** Modelled from the spec: the engine's speed-up [_fast] by a number: the
    window is stretched by the factor and the extents of the events found
    there are compressed by it; factor zero is silence.  A factor that is
    not a finite number is rejected. *)
Definition fast (factor : JsValue) (pat : Pattern) : Pattern :=
  fun state =>
    match factor with
    | JNum x =>
        match float_to_Q x with
        | Some q =>
            if Qeq_bool q 0 then Ok []
            else
              res_bind
                (pat {| span := scale_span (fun t => Qred (t * q)) (span state) |})
                (fun haps =>
                   Ok (map (fun hap =>
                              {| whole := option_map (scale_span (fun t => Qred (t / q))) (whole hap);
                                 part := scale_span (fun t => Qred (t / q)) (part hap);
                                 value := value hap |})
                         haps))
        | None => Throw (TypeError "Invalid speed")
        end
    | _ => Throw (TypeError "Invalid speed")
    end.

(** The nesting depth of the brackets of a mini-notation source after
    reading it; [None] when a bracket closes that was not opened. *)
Fixpoint bracket_depth (cs : list Ascii.ascii) (depth : nat) : option nat :=
  match cs with
  | [] => Some depth
  | c :: cs' =>
      if (Ascii.eqb c "[" || Ascii.eqb c "<")%char then bracket_depth cs' (S depth)
      else if (Ascii.eqb c "]" || Ascii.eqb c ">")%char then
        match depth with
        | O => None
        | S d => bracket_depth cs' d
        end
      else bracket_depth cs' depth
  end.

(** Modelled from the spec: the mini-notation parser [mini], reduced to
    what the bridge observes of it: it throws on a source whose brackets do
    not match and returns a pattern otherwise.  The pattern returned here is
    the single step that carries the source. *)
Definition mini (src : string) : option Pattern :=
  match bracket_depth (String.list_ascii_of_string src) 0 with
  | Some O => Some (pure (JStr src))
  | _ => None
  end.

Definition engine : Engine := Build_Engine pure mini stack fast.

(** A host that knows the few texts the examples use. *)
Definition dquote : string := String (Ascii.ascii_of_nat 34) EmptyString.

(** The JSON text of an object with the one member [gain], 1.5. *)
Definition gain_json : string :=
  ("{" ++ dquote ++ "gain" ++ dquote ++ ":1.5}")%string.

Definition json_parse (s : string) : option JsValue :=
  if String.eqb s gain_json then Some (JObj {["gain" := JNum 1.5]})
  else if String.eqb s "null" then Some JNull
  else None.

Definition parse_float (s : string) : float :=
  if String.eqb s "120" then 120%float
  else if String.eqb s "110" then 110%float
  else PrimFloat.nan.

(** ToString of the values that have a fixed spelling; a number or an array
    is not spelled out. *)
Definition to_string (v : JsValue) : string :=
  match v with
  | JUndefined => "undefined"
  | JNull => "null"
  | JBool true => "true"
  | JBool false => "false"
  | JStr s => s
  | JNum _ => "number"
  | JArr _ => "array"
  | JObj _ => "[object Object]"
  | JFun _ => "function"
  end.

(** The conversion of the objects that the examples use.  An object read
    from JSON has no function among its members, so its conversion throws as
    soon as it has a member [toString] of its own, and gives the text
    [[object Object]], which is not a numeral, otherwise.  Arrays are not
    among the values that the examples convert. *)
Definition convertible (v : JsValue) : bool :=
  match v with
  | JObj props => bool_decide (props !! "toString" = None)
  | _ => true
  end.

Definition conversion_error : JsError :=
  TypeError "Cannot convert object to primitive value".

Definition object_to_number (v : JsValue) : Res float :=
  if convertible v then Ok PrimFloat.nan else Throw conversion_error.

Definition object_to_string (v : JsValue) : Res string :=
  if convertible v then Ok (to_string v) else Throw conversion_error.

(** The methods of [Object.prototype] called on nothing: [constructor()]
    makes an empty object, [toString()] names the missing receiver,
    [isPrototypeOf()] answers no, and the others reject the receiver. *)
Definition call_builtin (name : string) : Res JsValue :=
  if String.eqb name "constructor" then Ok (JObj ∅)
  else if String.eqb name "toString" then Ok (JStr "[object Undefined]")
  else if String.eqb name "isPrototypeOf" then Ok (JBool false)
  else Throw (TypeError "Cannot convert undefined or null to object").

Definition host : Host :=
  {| JSON_parse := json_parse; parseFloat := parse_float;
     StringToNumber := parse_float;
     ObjectToNumber := object_to_number;
     ToString := object_to_string;
     SameReference := fun _ _ => false;
     CallBuiltin := call_builtin |}.

(** The window of the first cycle. *)
Definition cycle0 : State :=
  {| span := {| begin := 0 # 1; end_ := 1 # 1 |} |}.

Definition unit_span : TimeSpan := {| begin := 0 # 1; end_ := 1 # 1 |}.

(** The registry of the guide, with stand-ins for the arrangements. *)
Definition lead_variations : gmap string Variation :=
  <["techno" := VFunction (fun _ => Ok (LPattern (pure (JStr "supersaw"))))]>
    (<["epiano" := VFunction (fun _ => Ok (LPattern (pure (JStr "gm_epiano1"))))]>
       (<["original" := VFunction (fun _ => Ok (LPattern (pure (JStr "sawtooth"))))]> ∅)).

(** A registry with a factory that fails. *)
Definition factory_error : JsError := TypeError "arrange is not defined".

Definition broken_variations : gmap string Variation :=
  <["broken" := VFunction (fun _ => Throw factory_error)]> lead_variations.

(** An event of the first cycle with a payload. *)
Definition hap_of (payload : gmap string JsValue) : Hap :=
  {| whole := Some unit_span; part := unit_span; value := JObj payload |}.

(** A provider notification that one flag has a new value. *)
Definition change_of (flagKey : string) (old new : JsValue) : LdEvent :=
  Change {[flagKey := {| current := new; previous := old |}]}.

End Reference.

(* ===================================================================== *)
(** ** Reading the store                                                  *)
(* ===================================================================== *)

Section Store.

Lemma inherited_function name :
  name ∈ object_prototype_functions -> inherited name = Some (JFun name).
Proof. intros Hin. unfold inherited. by rewrite bool_decide_eq_true_2. Qed.

(** Every inherited member is truthy and neither [null] nor [undefined]. *)
Lemma inherited_truthy name v :
  inherited name = Some v -> truthy v = true /\ nullish v = false.
Proof.
  unfold inherited. case_bool_decide; [intros [= <-]; done |].
  destruct (String.eqb name "__proto__"); [intros [= <-]; done | discriminate].
Qed.

Lemma flags_get_absent (flags : gmap string JsValue) key :
  flags !! key = None -> inherited key = None -> flags_get flags key = JUndefined.
Proof. intros Habs Hinh. unfold flags_get, plain_get. by rewrite Habs, Hinh. Qed.

Lemma read_flag_absent (flags : gmap string JsValue) key d :
  flags !! key = None -> inherited key = None -> read_flag flags key d = d.
Proof. intros Habs Hinh. unfold read_flag. by rewrite flags_get_absent. Qed.

Lemma read_flag_present (flags : gmap string JsValue) key d v :
  flags !! key = Some v -> nullish v = false -> read_flag flags key d = v.
Proof.
  intros Hv Hn. unfold read_flag, flags_get, plain_get, coalesce. rewrite Hv.
  by rewrite Hn.
Qed.

(** A key that names an inherited member and has no entry of its own reads
    as that member, whatever the default. *)
Lemma read_flag_inherited (flags : gmap string JsValue) key d v :
  flags !! key = None -> inherited key = Some v -> read_flag flags key d = v.
Proof.
  intros Habs Hinh. unfold read_flag, flags_get, plain_get, coalesce.
  rewrite Habs, Hinh. simpl. by destruct (inherited_truthy _ _ Hinh) as [_ ->].
Qed.

End Store.

(* ===================================================================== *)
(** ** The stateless bridges: polySpeed and toggle                        *)
(* ===================================================================== *)

Section Stateless.
Context {H : Host} {E : Engine}.

(** Claim C4.  Whatever the query window, [polySpeed] answers as follows.
    When the value read is an array with at least one speed, the answer is
    that of the stack of the base pattern sped up by each element, the
    layers in the order of the array.  When the array is empty, the answer
    is that of the base pattern itself.  When the value is a single number,
    the answer is that of the base pattern sped up by it, with no stack
    around it. *)
Theorem polySpeed_layers (flags : gmap string JsValue) (self : Pattern)
    (flagKey : string) (defaultValue : JsValue) (state : State) :
  let speeds := read_flag flags flagKey (param_default defaultValue (JNum 1)) in
  (forall x xs, speeds = JArr (x :: xs) ->
     polySpeed flags self flagKey defaultValue state
     = stack (map (fun speed => fast speed self) (x :: xs)) state)
  /\ (speeds = JArr [] ->
      polySpeed flags self flagKey defaultValue state = self state)
  /\ (forall n, speeds = JNum n ->
      polySpeed flags self flagKey defaultValue state = fast (JNum n) self state).
Proof.
  intros speeds. unfold polySpeed, polySpeed_on. fold speeds.
  repeat split.
  - intros x xs ->. reflexivity.
  - intros ->. reflexivity.
  - intros n ->. reflexivity.
Qed.

(** The values that count as false. *)
Lemma truthy_false_iff (v : JsValue) :
  truthy v = false <->
  v = JUndefined \/ v = JNull \/ v = JBool false \/ v = JStr EmptyString
  \/ exists x, v = JNum x /\ (PrimFloat.eqb x 0 || PrimFloat.is_nan x = true).
Proof.
  split.
  - destruct v as [| |b|x|s|xs|props|f]; simpl; intros Hv; try discriminate; auto.
    + destruct b; [discriminate | auto].
    + do 4 right. exists x. split; [done |].
      destruct (PrimFloat.eqb x 0), (PrimFloat.is_nan x); simpl in *; congruence.
    + destruct s; [auto | discriminate].
  - intros [-> | [-> | [-> | [-> | (x & -> & Hx)]]]]; simpl; try reflexivity.
    destruct (PrimFloat.eqb x 0), (PrimFloat.is_nan x); simpl in *; congruence.
Qed.

(** Claim C6.  For every query window, [toggle] returns what the base
    pattern returns for that window, unchanged, when the value read is
    truthy, and the empty list of events when it is falsy.  The answer
    depends on nothing but the store and the window of that query, so every
    query decides anew. *)
Theorem toggle_all_or_nothing (flags : gmap string JsValue) (self : Pattern)
    (flagKey : string) (defaultValue : JsValue) (state : State) :
  let enabled := read_flag flags flagKey (param_default defaultValue (JBool true)) in
  (truthy enabled = true ->
     toggle flags self flagKey defaultValue state = self state)
  /\ (truthy enabled = false ->
      toggle flags self flagKey defaultValue state = Ok []).
Proof.
  intros enabled. unfold toggle, toggle_on. fold enabled.
  split; intros ->; reflexivity.
Qed.

End Stateless.

(* ===================================================================== *)
(** ** The parameter-bundle merges                                        *)
(* ===================================================================== *)

Section Merges.
Context {H : Host} {E : Engine}.

Lemma lookup_set_defined_ne name x (m : gmap string JsValue) k :
  name <> k -> set_defined name x m !! k = m !! k.
Proof.
  intros Hne. unfold set_defined.
  destruct x; try reflexivity; by rewrite lookup_insert_ne.
Qed.

Lemma lookup_set_defined_eq name x (m : gmap string JsValue) :
  x <> JUndefined -> set_defined name x m !! name = Some x.
Proof.
  intros Hx. unfold set_defined.
  destruct x; try congruence; by rewrite lookup_insert_eq.
Qed.

Lemma lookup_rest_props_removed parsedValue names name :
  name ∈ names -> rest_props parsedValue names !! name = None.
Proof.
  unfold rest_props. induction names as [|n names IH]; intros Hin.
  - by apply elem_of_nil in Hin.
  - simpl. destruct (decide (n = name)) as [->|Hne].
    + apply lookup_delete_eq.
    + rewrite lookup_delete_ne by done. apply IH.
      apply elem_of_cons in Hin as [?|?]; [congruence | done].
Qed.

Lemma lookup_rest_props_kept parsedValue names name :
  name ∉ names -> rest_props parsedValue names !! name = own_props parsedValue !! name.
Proof.
  unfold rest_props. induction names as [|n names IH]; intros Hin; [done |].
  simpl. apply not_elem_of_cons in Hin as [Hne Hin].
  rewrite lookup_delete_ne by done. by apply IH.
Qed.

Lemma drumKit_value_gain bank product effects v :
  drumKit_value bank product effects v !! "gain" = Some product.
Proof. unfold drumKit_value. apply lookup_insert_eq. Qed.

Lemma drumKit_value_bank bank product effects v :
  drumKit_value bank product effects v !! "bank" = Some bank.
Proof.
  unfold drumKit_value. rewrite lookup_insert_ne by done. apply lookup_insert_eq.
Qed.

Lemma sound_value_gain sound product otherEffects v :
  sound_value sound product otherEffects v !! "gain" = Some product.
Proof. unfold sound_value. apply lookup_insert_eq. Qed.

Lemma sound_value_s sound product otherEffects v :
  sound_value sound product otherEffects v !! "s" = Some sound.
Proof.
  unfold sound_value. rewrite lookup_insert_ne by done. apply lookup_insert_eq.
Qed.

(** A field that is neither [gain] nor [s] and that the bundle's rest does
    not carry reaches the new payload from the old payload only. *)
Lemma sound_value_from_payload sound product (otherEffects : gmap string JsValue) v name :
  otherEffects !! name = None -> name <> "gain" -> name <> "s" ->
  sound_value sound product otherEffects v !! name = own_props v !! name.
Proof.
  intros Hrest Hg Hs. unfold sound_value.
  rewrite !lookup_insert_ne by done. by rewrite lookup_union_r.
Qed.

(** A field of the bundle's rest is copied over the payload. *)
Lemma sound_value_from_bundle sound product (otherEffects : gmap string JsValue) v name x :
  otherEffects !! name = Some x -> name <> "gain" -> name <> "s" ->
  sound_value sound product otherEffects v !! name = Some x.
Proof.
  intros Hrest Hg Hs. unfold sound_value.
  rewrite !lookup_insert_ne by done. by apply lookup_union_Some_l.
Qed.

Lemma field_default_absent v name d :
  own_props v !! name = None -> field_default v name d = d.
Proof. intros Habs. unfold field_default, member. by rewrite Habs. Qed.

Lemma field_default_undefined v name d :
  own_props v !! name = Some JUndefined -> field_default v name d = d.
Proof. intros Habs. unfold field_default, member. by rewrite Habs. Qed.

Lemma field_default_present v name d x :
  own_props v !! name = Some x -> x <> JUndefined -> field_default v name d = x.
Proof.
  intros Hx Hd. unfold field_default, member. rewrite Hx. simpl.
  by destruct x.
Qed.

Lemma member_undefined v name :
  own_props v !! name = None \/ own_props v !! name = Some JUndefined ->
  member v name = JUndefined.
Proof. unfold member. by intros [-> | ->]. Qed.

(** The product the code computes is the product of the two gains as the
    description states them. *)
Lemma merged_gain_stated v bundle :
  merged_gain v (field_default bundle "gain" (JNum 1))
  = js_mul (stated_event_gain v) (stated_bundle_gain bundle).
Proof.
  unfold merged_gain, field_default, member, stated_event_gain, stated_bundle_gain,
    coalesce.
  f_equal.
  - by destruct (own_props v !! "gain") as [[]|].
  - by destruct (own_props bundle !! "gain") as [[]|].
Qed.

(** A product of two numbers is their IEEE product; one of two values that
    are neither arrays nor objects is always computed. *)
Lemma js_mul_numbers x y : js_mul (JNum x) (JNum y) = Ok (JNum (PrimFloat.mul x y)).
Proof. reflexivity. Qed.

Lemma to_number_primitive v :
  is_primitive v = true -> exists x, to_number v = Ok x.
Proof. destruct v; simpl; try discriminate; intros _; by eexists. Qed.

Lemma js_mul_primitive a b :
  is_primitive a = true -> is_primitive b = true ->
  exists product, js_mul a b = Ok product.
Proof.
  intros [x Hx]%to_number_primitive [y Hy]%to_number_primitive.
  unfold js_mul. rewrite Hx, Hy. by eexists.
Qed.

Lemma js_mul_throws_iff a b :
  (exists e, js_mul a b = Throw e)
  <-> (exists e, to_number a = Throw e)
      \/ (exists e, to_number b = Throw e).
Proof.
  unfold js_mul. destruct (to_number a) as [x|ea], (to_number b) as [y|eb];
    simpl; split.
  - intros [e He]. discriminate.
  - intros [[e He] | [e He]]; discriminate.
  - intros [e He]. right. by eexists.
  - intros _. by eexists.
  - intros [e He]. left. by eexists.
  - intros _. by eexists.
  - intros [e He]. left. by eexists.
  - intros _. by eexists.
Qed.

Lemma drumKit_hap_on_ok flagValue hap product :
  let parsedValue := parse_if_string flagValue in
  nullish parsedValue = false ->
  nullish (value hap) = false ->
  js_mul (stated_event_gain (value hap)) (stated_bundle_gain parsedValue)
  = Ok product ->
  drumKit_hap_on flagValue hap
  = Ok (with_value hap
          (JObj (drumKit_value
                   (field_default parsedValue "bank" (JStr "RolandTR808"))
                   product
                   (rest_props parsedValue ["bank"; "gain"])
                   (value hap)))).
Proof.
  intros parsedValue Hp Hv Hg. unfold drumKit_hap_on, hap_withValue.
  fold parsedValue. rewrite Hp, Hv, merged_gain_stated, Hg. reflexivity.
Qed.

Lemma bassSound_hap_on_ok flagValue hap product :
  let parsedValue := parse_if_string flagValue in
  nullish parsedValue = false ->
  nullish (value hap) = false ->
  js_mul (stated_event_gain (value hap)) (stated_bundle_gain parsedValue)
  = Ok product ->
  bassSound_hap_on flagValue hap
  = Ok (with_value hap
          (JObj (set_defined "lpf" (member parsedValue "lpf")
                   (sound_value
                      (field_default parsedValue "sound" (JStr "gm_synth_bass_2"))
                      product
                      (rest_props parsedValue ["sound"; "lpf"; "gain"])
                      (value hap))))).
Proof.
  intros parsedValue Hp Hv Hg. unfold bassSound_hap_on, hap_withValue.
  fold parsedValue. rewrite Hp, Hv, merged_gain_stated, Hg. reflexivity.
Qed.

Lemma leadSound_hap_on_ok flagValue hap product :
  let parsedValue := parse_if_string flagValue in
  nullish parsedValue = false ->
  nullish (value hap) = false ->
  js_mul (stated_event_gain (value hap)) (stated_bundle_gain parsedValue)
  = Ok product ->
  leadSound_hap_on flagValue hap
  = Ok (with_value hap
          (JObj (set_defined "lpq" (member parsedValue "lpq")
                   (set_defined "lpf" (member parsedValue "lpf")
                      (sound_value
                         (field_default parsedValue "sound" (JStr "sawtooth"))
                         product
                         (rest_props parsedValue ["sound"; "lpf"; "lpq"; "gain"])
                         (value hap)))))).
Proof.
  intros parsedValue Hp Hv Hg. unfold leadSound_hap_on, hap_withValue.
  fold parsedValue. rewrite Hp, Hv, merged_gain_stated, Hg. reflexivity.
Qed.

(** A merge throws when the decoded bundle or the payload of the event is
    [null] or [undefined]. *)
Lemma drumKit_hap_on_throws flagValue hap :
  nullish (parse_if_string flagValue) || nullish (value hap) = true ->
  exists e, drumKit_hap_on flagValue hap = Throw e.
Proof.
  intros Hn. unfold drumKit_hap_on, hap_withValue.
  destruct (nullish (parse_if_string flagValue)); [by eexists |].
  simpl in Hn. rewrite Hn. by eexists.
Qed.

(** A merge throws what the multiplication of the gains throws. *)
Lemma drumKit_hap_on_gain_throws flagValue hap e :
  let parsedValue := parse_if_string flagValue in
  nullish parsedValue = false ->
  nullish (value hap) = false ->
  js_mul (stated_event_gain (value hap)) (stated_bundle_gain parsedValue)
  = Throw e ->
  drumKit_hap_on flagValue hap = Throw e.
Proof.
  intros parsedValue Hp Hv Hg. unfold drumKit_hap_on, hap_withValue.
  fold parsedValue. rewrite Hp, Hv, merged_gain_stated, Hg. reflexivity.
Qed.

Lemma bassSound_hap_on_gain_throws flagValue hap e :
  let parsedValue := parse_if_string flagValue in
  nullish parsedValue = false ->
  nullish (value hap) = false ->
  js_mul (stated_event_gain (value hap)) (stated_bundle_gain parsedValue)
  = Throw e ->
  bassSound_hap_on flagValue hap = Throw e.
Proof.
  intros parsedValue Hp Hv Hg. unfold bassSound_hap_on, hap_withValue.
  fold parsedValue. rewrite Hp, Hv, merged_gain_stated, Hg. reflexivity.
Qed.

Lemma leadSound_hap_on_gain_throws flagValue hap e :
  let parsedValue := parse_if_string flagValue in
  nullish parsedValue = false ->
  nullish (value hap) = false ->
  js_mul (stated_event_gain (value hap)) (stated_bundle_gain parsedValue)
  = Throw e ->
  leadSound_hap_on flagValue hap = Throw e.
Proof.
  intros parsedValue Hp Hv Hg. unfold leadSound_hap_on, hap_withValue.
  fold parsedValue. rewrite Hp, Hv, merged_gain_stated, Hg. reflexivity.
Qed.

(** Claim C5.  For an event whose payload is not [null] or [undefined] and
    a bundle that decodes to something other than [null], each of the three
    merges [drumKit], [bassSound] and [leadSound] multiplies the gain the
    event carried, 1 when it carried none, by the gain of the bundle, 1 when
    the bundle has none: when that multiplication gives a product, the merge
    returns an event whose gain is the product, and when it throws (a gain
    that is an object without a conversion to a number), the merge throws
    the same exception.  The product of two numbers is their product as
    IEEE doubles, so [2] and [1.5] give [3].  The gain the event carried is
    a factor of the result and is never dropped in favour of the
    bundle's. *)
Theorem bundle_gain_multiplies (flags : gmap string JsValue) (flagKey : string)
    (defaultValue : JsValue) (hap : Hap) :
  nullish (value hap) = false ->
  let bundle d :=
    parse_if_string (read_flag flags flagKey (param_default defaultValue d)) in
  let multiplied (result : Res Hap) (d : JsValue) :=
    nullish (bundle d) = false ->
    match js_mul (stated_event_gain (value hap)) (stated_bundle_gain (bundle d)) with
    | Ok product =>
        exists hap', result = Ok hap'
          /\ own_props (value hap') !! "gain" = Some product
    | Throw e => result = Throw e
    end in
  multiplied (drumKit_hap flags flagKey defaultValue hap) drumKit_default
  /\ multiplied (bassSound_hap flags flagKey defaultValue hap) bassSound_default
  /\ multiplied (leadSound_hap flags flagKey defaultValue hap) leadSound_default
  /\ (forall x y existing given,
        stated_event_gain existing = JNum x -> stated_bundle_gain given = JNum y ->
        js_mul (stated_event_gain existing) (stated_bundle_gain given)
        = Ok (JNum (PrimFloat.mul x y))).
Proof.
  intros Hv bundle multiplied. unfold multiplied. repeat split.
  - intros Hb.
    destruct (js_mul _ _) as [product|e] eqn:Hg.
    + eexists. split.
      * unfold drumKit_hap. by apply drumKit_hap_on_ok.
      * simpl. apply drumKit_value_gain.
    + unfold drumKit_hap. by apply drumKit_hap_on_gain_throws.
  - intros Hb.
    destruct (js_mul _ _) as [product|e] eqn:Hg.
    + eexists. split.
      * unfold bassSound_hap. by apply bassSound_hap_on_ok.
      * simpl. rewrite lookup_set_defined_ne by done. apply sound_value_gain.
    + unfold bassSound_hap. by apply bassSound_hap_on_gain_throws.
  - intros Hb.
    destruct (js_mul _ _) as [product|e] eqn:Hg.
    + eexists. split.
      * unfold leadSound_hap. by apply leadSound_hap_on_ok.
      * simpl. rewrite !lookup_set_defined_ne by done. apply sound_value_gain.
    + unfold leadSound_hap. by apply leadSound_hap_on_gain_throws.
  - intros x y existing given -> ->. apply js_mul_numbers.
Qed.

(** Claim C10.  For an event whose payload is not [null] or [undefined], a
    bundle that decodes to something other than [null] and gains that
    multiply, [bassSound] and [leadSound] return an event whose field [s]
    is always set: to the [sound] of the bundle when the bundle has one, and
    to the built-in name ([gm_synth_bass_2], [sawtooth]) when the bundle has
    no [sound].  The field [lpf], and for [leadSound] also [lpq], is the
    bundle's when the bundle has one, and the payload's own, present or
    absent as before, when the bundle has none. *)
Theorem sound_overwritten_filters_kept (flags : gmap string JsValue)
    (flagKey : string) (defaultValue : JsValue) (hap : Hap) :
  nullish (value hap) = false ->
  let bass :=
    parse_if_string (read_flag flags flagKey (param_default defaultValue bassSound_default)) in
  let lead :=
    parse_if_string (read_flag flags flagKey (param_default defaultValue leadSound_default)) in
  let has bundle name x := own_props bundle !! name = Some x /\ x <> JUndefined in
  let lacks bundle name :=
    own_props bundle !! name = None \/ own_props bundle !! name = Some JUndefined in
  (nullish bass = false ->
   forall product,
     js_mul (stated_event_gain (value hap)) (stated_bundle_gain bass) = Ok product ->
     exists hap', bassSound_hap flags flagKey defaultValue hap = Ok hap'
       /\ (forall x, has bass "sound" x -> own_props (value hap') !! "s" = Some x)
       /\ (lacks bass "sound" ->
           own_props (value hap') !! "s" = Some (JStr "gm_synth_bass_2"))
       /\ (forall x, has bass "lpf" x -> own_props (value hap') !! "lpf" = Some x)
       /\ (lacks bass "lpf" ->
           own_props (value hap') !! "lpf" = own_props (value hap) !! "lpf"))
  /\ (nullish lead = false ->
      forall product,
        js_mul (stated_event_gain (value hap)) (stated_bundle_gain lead) = Ok product ->
        exists hap', leadSound_hap flags flagKey defaultValue hap = Ok hap'
          /\ (forall x, has lead "sound" x -> own_props (value hap') !! "s" = Some x)
          /\ (lacks lead "sound" ->
              own_props (value hap') !! "s" = Some (JStr "sawtooth"))
          /\ (forall x, has lead "lpf" x -> own_props (value hap') !! "lpf" = Some x)
          /\ (lacks lead "lpf" ->
              own_props (value hap') !! "lpf" = own_props (value hap) !! "lpf")
          /\ (forall x, has lead "lpq" x -> own_props (value hap') !! "lpq" = Some x)
          /\ (lacks lead "lpq" ->
              own_props (value hap') !! "lpq" = own_props (value hap) !! "lpq")).
Proof.
  intros Hv bass lead has lacks. unfold has, lacks. split.
  - intros Hb product Hg. eexists.
    split; [unfold bassSound_hap; by apply bassSound_hap_on_ok |].
    fold bass. cbn [value with_value own_props]. repeat split.
    + intros x [Hx Hd]. rewrite lookup_set_defined_ne by done.
      rewrite sound_value_s. by rewrite (field_default_present _ _ _ x).
    + intros Habs. rewrite lookup_set_defined_ne by done.
      rewrite sound_value_s.
      destruct Habs as [Habs|Habs];
        [by rewrite field_default_absent | by rewrite field_default_undefined].
    + intros x [Hx Hd]. unfold member. rewrite Hx. simpl.
      by apply lookup_set_defined_eq.
    + intros Habs. rewrite (member_undefined _ _ Habs). cbn [set_defined].
      apply sound_value_from_payload; [| done | done].
      apply lookup_rest_props_removed. by repeat constructor.
  - intros Hb product Hg. eexists.
    split; [unfold leadSound_hap; by apply leadSound_hap_on_ok |].
    fold lead. cbn [value with_value own_props]. repeat split.
    + intros x [Hx Hd]. rewrite !lookup_set_defined_ne by done.
      rewrite sound_value_s. by rewrite (field_default_present _ _ _ x).
    + intros Habs. rewrite !lookup_set_defined_ne by done.
      rewrite sound_value_s.
      destruct Habs as [Habs|Habs];
        [by rewrite field_default_absent | by rewrite field_default_undefined].
    + intros x [Hx Hd]. rewrite lookup_set_defined_ne by done.
      unfold member at 1. rewrite Hx. simpl. by apply lookup_set_defined_eq.
    + intros Habs. rewrite lookup_set_defined_ne by done.
      rewrite (member_undefined _ "lpf" Habs). cbn [set_defined].
      apply sound_value_from_payload; [| done | done].
      apply lookup_rest_props_removed. by repeat constructor.
    + intros x [Hx Hd]. unfold member at 1. rewrite Hx. simpl.
      by apply lookup_set_defined_eq.
    + intros Habs. rewrite (member_undefined _ "lpq" Habs). cbn [set_defined].
      rewrite lookup_set_defined_ne by done.
      apply sound_value_from_payload; [| done | done].
      apply lookup_rest_props_removed. by repeat constructor.
Qed.

End Merges.

(* ===================================================================== *)
(** ** The scalar bridge                                                  *)
(* ===================================================================== *)

Section Scalar.
Context {H : Host} {E : Engine}.

Lemma flag_on_plain key v c state :
  hasMiniNotation v = false -> flag_on key v c state = (pure v state, c, []).
Proof.
  intros Hv. unfold flag_on. destruct v; try reflexivity.
  simpl in Hv. by rewrite Hv.
Qed.

Lemma flag_on_hit key s c state :
  has_mini_char s = true -> cachedValue c = Some s ->
  flag_on key (JStr s) c state = (query_cached (cachedPattern c) state, c, []).
Proof.
  intros Hs Hc. unfold flag_on. rewrite Hs.
  by rewrite bool_decide_eq_true_2.
Qed.

Lemma flag_on_parsed key s c state pat :
  has_mini_char s = true -> cachedValue c <> Some s -> mini s = Some pat ->
  flag_on key (JStr s) c state
  = (pat state, {| cachedValue := Some s; cachedPattern := Some pat |}, [CallMini s]).
Proof.
  intros Hs Hc Hm. unfold flag_on. rewrite Hs.
  rewrite bool_decide_eq_false_2 by done. by rewrite Hm.
Qed.

Lemma flag_on_failed key s c state :
  has_mini_char s = true -> cachedValue c <> Some s -> mini s = None ->
  flag_on key (JStr s) c state
  = (pure (JStr s) state, c, [CallMini s; ConsoleError (flag_parse_error key)]).
Proof.
  intros Hs Hc Hm. unfold flag_on. rewrite Hs.
  rewrite bool_decide_eq_false_2 by done. by rewrite Hm.
Qed.

Lemma flag_new_valid : flag_cache_valid flag_new.
Proof. intros s Hs. discriminate. Qed.

(** No query makes a valid cache invalid. *)
Lemma flag_keeps_cache_valid flags key d c state :
  flag_cache_valid c -> flag_cache_valid (flag flags key d c state).1.2.
Proof.
  intros Hc. unfold flag, flag_on.
  destruct (read_flag flags key d) as [| |b|x|s|xs|props|f]; try done.
  destruct (has_mini_char s); [| done].
  case_bool_decide; [done |].
  destruct (mini s) as [pat|] eqn:Hm; [| done].
  intros s' Hs'. simpl in *. injection Hs' as <-. by exists pat.
Qed.

(** Claim C7.  A cache that is valid (as every cache is that [flag] has
    produced) and a value read that is a string with mini-notation
    characters which the parser rejects: the query logs the error, returns
    the events of the raw string as a constant-valued pattern, and returns
    the cache as it received it: neither the remembered string nor the
    remembered pattern changes, and the rejected string is not the
    remembered one. *)
Theorem flag_parse_failure_keeps_cache (flags : gmap string JsValue)
    (key : string) (defaultValue : JsValue) (c : FlagCache) (state : State)
    (s : string) :
  flag_cache_valid c ->
  read_flag flags key defaultValue = JStr s ->
  has_mini_char s = true ->
  mini s = None ->
  flag flags key defaultValue c state
  = (pure (JStr s) state, c, [CallMini s; ConsoleError (flag_parse_error key)])
  /\ cachedValue (flag flags key defaultValue c state).1.2 <> Some s.
Proof.
  intros Hc Hread Hs Hm.
  assert (cachedValue c <> Some s) as Hne.
  { intros Hcs. destruct (Hc s Hcs) as (pat & Hpat & _). congruence. }
  unfold flag. rewrite Hread. rewrite flag_on_failed by done. by split.
Qed.

End Scalar.

(* ===================================================================== *)
(** ** The cached variant selector                                        *)
(* ===================================================================== *)

Section Selector.
Context {H : Host} {E : Engine}.

Lemma strict_eq_names a b : strict_eq (JStr a) (JStr b) = bool_decide (a = b).
Proof.
  simpl. destruct (String.eqb_spec a b).
  - by rewrite bool_decide_eq_true_2.
  - by rewrite bool_decide_eq_false_2.
Qed.

Lemma strict_eq_name_other name cached :
  cached <> JStr name -> strict_eq (JStr name) cached = false.
Proof.
  intros Hne. destruct cached; try reflexivity.
  rewrite strict_eq_names. apply bool_decide_eq_false_2. congruence.
Qed.

Lemma strict_eq_name_same name : strict_eq (JStr name) (JStr name) = true.
Proof. rewrite strict_eq_names. by apply bool_decide_eq_true_2. Qed.

(** A name with a factory of its own in the registry is found under that
    name. *)
Lemma lookup_variation_own (variations : gmap string Variation) name d f :
  variations !! name = Some (VFunction f) ->
  lookup_variation variations (JStr name) d = Ok (Some (name, VFunction f)).
Proof.
  intros Hv. unfold lookup_variation, variations_get. simpl. by rewrite Hv.
Qed.

(** A name that [variations] neither has nor inherits reads as
    [undefined]. *)
Lemma variations_get_none (variations : gmap string Variation) name :
  variations !! name = None -> inherited name = None ->
  variations_get variations name = None.
Proof.
  intros Hv Hinh. unfold variations_get, inherited_variation. by rewrite Hv, Hinh.
Qed.

(** A method of [Object.prototype] that the registry does not redefine is
    what the registry answers under its name. *)
Lemma variations_get_inherited (variations : gmap string Variation) name :
  variations !! name = None -> name ∈ object_prototype_functions ->
  variations_get variations name
  = Some (VFunction (fun _ => res_bind (CallBuiltin name) (fun v => Ok (LOther v)))).
Proof.
  intros Hv Hin. unfold variations_get, inherited_variation.
  by rewrite Hv, inherited_function.
Qed.

(** A query whose selection is the cached one builds nothing. *)
Lemma lead_hit variationKey d variations c state found entry :
  lookup_variation variations variationKey d = Ok (Some (found, entry)) ->
  strict_eq variationKey (cachedVariationKey c) = true ->
  getLeadArrangement_on variationKey d variations c state
  = (query_lead (cachedLeadPattern c) state, c, []).
Proof.
  intros Hl Heq. unfold getLeadArrangement_on. by rewrite Hl, Heq.
Qed.

(** A query whose selection is not the cached one calls the factory once
    and, when the factory returns, replaces the cache. *)
Lemma lead_miss variationKey d variations c state found patternFactory x :
  lookup_variation variations variationKey d
  = Ok (Some (found, VFunction patternFactory)) ->
  strict_eq variationKey (cachedVariationKey c) = false ->
  patternFactory tt = Ok x ->
  getLeadArrangement_on variationKey d variations c state
  = (query_lead x state,
     {| cachedVariationKey := variationKey; cachedLeadPattern := x |},
     [CallFactory found]).
Proof.
  intros Hl Heq Hf. unfold getLeadArrangement_on. by rewrite Hl, Heq, Hf.
Qed.

(** When the factory throws, the exception leaves the query; the selection
    has been stored already and the cached pattern has not been replaced. *)
Lemma lead_miss_throws variationKey d variations c state found patternFactory e :
  lookup_variation variations variationKey d
  = Ok (Some (found, VFunction patternFactory)) ->
  strict_eq variationKey (cachedVariationKey c) = false ->
  patternFactory tt = Throw e ->
  getLeadArrangement_on variationKey d variations c state
  = (Throw e,
     {| cachedVariationKey := variationKey;
        cachedLeadPattern := cachedLeadPattern c |},
     [CallFactory found]).
Proof.
  intros Hl Heq Hf. unfold getLeadArrangement_on. by rewrite Hl, Heq, Hf.
Qed.

(** Whatever the factory does, the miss stores the selection and calls the
    factory once. *)
Lemma lead_miss_key_and_call variationKey d variations c state found patternFactory :
  lookup_variation variations variationKey d
  = Ok (Some (found, VFunction patternFactory)) ->
  strict_eq variationKey (cachedVariationKey c) = false ->
  cachedVariationKey (getLeadArrangement_on variationKey d variations c state).1.2
  = variationKey
  /\ (getLeadArrangement_on variationKey d variations c state).2
     = [CallFactory found].
Proof.
  intros Hl Heq. unfold getLeadArrangement_on. rewrite Hl, Heq.
  by destruct (patternFactory tt).
Qed.

(** A query that finds neither the selection nor the default warns, is
    silent and leaves the cache alone. *)
Lemma lead_unknown variationKey d variations c state msg :
  lookup_variation variations variationKey d = Ok None ->
  no_variation_warning variationKey d = Ok msg ->
  getLeadArrangement_on variationKey d variations c state
  = (Ok [], c, [ConsoleWarn msg]).
Proof. intros Hl Hm. unfold getLeadArrangement_on. by rewrite Hl, Hm. Qed.

(** The factories a session calls, when every selection names a factory of
    the registry: a factory that throws counts like one that returns. *)
Lemma lead_session_calls flagKey d (variations : gmap string Variation) queries names :
  Forall2 (fun (q : gmap string JsValue * State) name =>
             read_flag q.1 flagKey d = JStr name
             /\ exists f, variations !! name = Some (VFunction f))
    queries names ->
  forall c,
    factory_calls (lead_session flagKey d variations queries c).2
    = selections_built (cachedVariationKey c) names
    /\ cachedVariationKey (lead_session flagKey d variations queries c).1
       = match last names with
         | Some name => JStr name
         | None => cachedVariationKey c
         end.
Proof.
  induction 1 as [|[flags state] name queries names [Hread [f Hf]] Hrest IH];
    intros c; [done |].
  simpl in Hread.
  cbn [lead_session selections_built]. unfold getLeadArrangement. rewrite Hread.
  destruct (strict_eq (JStr name) (cachedVariationKey c)) eqn:Heq.
  - assert (cachedVariationKey c = JStr name) as Hc.
    { destruct (cachedVariationKey c); try discriminate.
      rewrite strict_eq_names in Heq. apply bool_decide_eq_true_1 in Heq. congruence. }
    rewrite (lead_hit _ _ _ _ _ name (VFunction f)) by (by apply lookup_variation_own || done).
    destruct (lead_session flagKey d variations queries c) as [c2 log2] eqn:Hs.
    specialize (IH c). rewrite Hs in IH. destruct IH as [IH1 IH2]. simpl in *.
    split.
    + rewrite IH1. by rewrite Hc.
    + rewrite IH2, last_cons, Hc. by destruct (last names).
  - destruct (lead_miss_key_and_call (JStr name) d variations c state name f)
      as [Hkey Hlog]; [by apply lookup_variation_own | done |].
    destruct (getLeadArrangement_on (JStr name) d variations c state)
      as [[r c1] log1].
    simpl in Hkey, Hlog. subst log1.
    destruct (lead_session flagKey d variations queries c1) as [c2 log2] eqn:Hs.
    specialize (IH c1). rewrite Hs in IH. destruct IH as [IH1 IH2]. simpl in *.
    split.
    + by rewrite IH1, Hkey.
    + rewrite IH2, last_cons, Hkey. by destruct (last names).
Qed.

(** Claim C2.  A selector has two states, nothing cached and one
    selection cached.  A query whose selected name is the cached one calls
    no factory and answers with what is cached, the cache staying as it is.
    A query whose selected name is not the cached one (or that finds
    nothing cached) calls the function found for it exactly once, whether
    that is the registry's own entry, the default's entry or a member that
    the registry inherits, and stores the selected name; the pattern the
    factory returns replaces the cached one, and a factory that throws leaves
    the cached one in place.  Over a session of registered factories the
    factories called are therefore the names that differ from their
    predecessor; only the latest selection is kept, so selecting [a], [a]
    again, [b] and [a] again calls the factory of [a], of [b] and of [a] a
    second time. *)
Theorem lead_selector_two_states (flagKey : string) (defaultVariation : JsValue)
    (variations : gmap string Variation) :
  (forall flags c state name found entry,
     read_flag flags flagKey defaultVariation = JStr name ->
     lookup_variation variations (JStr name) defaultVariation
     = Ok (Some (found, entry)) ->
     cachedVariationKey c = JStr name ->
     getLeadArrangement flags flagKey defaultVariation variations c state
     = (query_lead (cachedLeadPattern c) state, c, []))
  /\ (forall flags c state name found patternFactory x,
     read_flag flags flagKey defaultVariation = JStr name ->
     lookup_variation variations (JStr name) defaultVariation
     = Ok (Some (found, VFunction patternFactory)) ->
     cachedVariationKey c <> JStr name ->
     patternFactory tt = Ok x ->
     getLeadArrangement flags flagKey defaultVariation variations c state
     = (query_lead x state,
        {| cachedVariationKey := JStr name; cachedLeadPattern := x |},
        [CallFactory found]))
  /\ (forall flags c state name found patternFactory e,
     read_flag flags flagKey defaultVariation = JStr name ->
     lookup_variation variations (JStr name) defaultVariation
     = Ok (Some (found, VFunction patternFactory)) ->
     cachedVariationKey c <> JStr name ->
     patternFactory tt = Throw e ->
     getLeadArrangement flags flagKey defaultVariation variations c state
     = (Throw e,
        {| cachedVariationKey := JStr name;
           cachedLeadPattern := cachedLeadPattern c |},
        [CallFactory found]))
  /\ (forall queries names c,
     Forall2 (fun (q : gmap string JsValue * State) name =>
                read_flag q.1 flagKey defaultVariation = JStr name
                /\ exists f, variations !! name = Some (VFunction f))
       queries names ->
     factory_calls (lead_session flagKey defaultVariation variations queries c).2
     = selections_built (cachedVariationKey c) names)
  /\ (forall a b, a <> b ->
     selections_built (cachedVariationKey lead_new) [a; a; b; a] = [a; b; a]).
Proof.
  repeat split.
  - intros flags c state name found entry Hread Hl Hc.
    unfold getLeadArrangement. rewrite Hread.
    apply (lead_hit _ _ _ _ _ found entry); [done |].
    rewrite Hc. apply strict_eq_name_same.
  - intros flags c state name found f x Hread Hl Hc Hf.
    unfold getLeadArrangement. rewrite Hread.
    apply (lead_miss _ _ _ _ _ _ f); [done | | done]. by apply strict_eq_name_other.
  - intros flags c state name found f e Hread Hl Hc Hf.
    unfold getLeadArrangement. rewrite Hread.
    apply (lead_miss_throws _ _ _ _ _ _ f); [done | | done].
    by apply strict_eq_name_other.
  - intros queries names c Hq. by apply lead_session_calls.
  - intros a b Hab. cbn [selections_built lead_new cachedVariationKey].
    rewrite strict_eq_name_same, !strict_eq_name_other by congruence.
    reflexivity.
Qed.

End Selector.

(* ===================================================================== *)
(** ** The module state                                                   *)
(* ===================================================================== *)

Section ModuleState.
Context {H : Host} {E : Engine}.

Lemma add_effect_effects e w : add_effect e w = add_effects [e] w.
Proof. reflexivity. Qed.

Lemma add_effects_nil w : add_effects [] w = w.
Proof. destruct w. unfold add_effects. simpl. by rewrite app_nil_r. Qed.

Lemma add_effects_app es1 es2 w :
  add_effects es2 (add_effects es1 w) = add_effects (es1 ++ es2) w.
Proof. unfold add_effects. simpl. by rewrite app_assoc. Qed.

Lemma tempo_reactions_add_effects settings es w ls :
  tempo_reactions settings (add_effects es w) ls = tempo_reactions settings w ls.
Proof.
  induction ls as [|l ls IH]; [done |].
  cbn [tempo_reactions add_effects flags global_setcpm global_setCpm].
  cbn [tempo_reactions add_effects flags global_setcpm global_setCpm] in IH.
  by rewrite IH.
Qed.

(** The tempo listeners ignore every event but a change. *)
Lemma tempo_emit_ignores ev w ls :
  (forall settings, ev <> Change settings) ->
  emit ev w (map OnChangeTempo ls) = w.
Proof.
  intros Hev. induction ls as [|l ls IH]; [done |].
  simpl. destruct ev; try apply IH. by destruct (Hev settings).
Qed.

(** On a change, each listener whose key the notification names applies the
    tempo, in the order of registration, until one of them throws. *)
Lemma tempo_emit_change settings ls : forall w,
  emit (Change settings) w (map OnChangeTempo ls)
  = add_effects (tempo_reactions settings w ls) w.
Proof.
  induction ls as [|l ls IH]; intros w.
  - simpl. by rewrite add_effects_nil.
  - cbn [map emit run_handler tempo_reactions].
    destruct (change_names settings (tl_flagKey l)).
    + unfold applyTempo. destruct (getValue (flags w) l) as [cpm|e]; simpl.
      * rewrite IH, add_effect_effects.
        by rewrite tempo_reactions_add_effects, add_effects_app.
      * apply add_effect_effects.
    + by rewrite IH.
Qed.

(** What an event does to a world whose client carries the callbacks of
    [initLaunchDarkly] followed by tempo listeners. *)
Lemma deliver_shape ev w ls :
  ldClient w = Some (init_handlers ++ map OnChangeTempo ls) ->
  deliver ev w
  = match ev with
    | Ready allFlags => settle Resolved (set_flags (allFlags ∪ flags w) w)
    | Change settings =>
        let w' := set_flags ((current <$> settings) ∪ flags w) w in
        add_effects (tempo_reactions settings w' ls) w'
    | Failed err =>
        settle (Rejected err) (add_effect (ConsoleError failed_message) w)
    end.
Proof.
  intros Hc. unfold deliver. rewrite Hc.
  destruct ev as [allFlags|settings|err];
    cbn [init_handlers app emit run_handler].
  - by apply tempo_emit_ignores.
  - apply tempo_emit_change.
  - by apply tempo_emit_ignores.
Qed.

Lemma settle_fields s w :
  ldClient (settle s w) = ldClient w
  /\ flags (settle s w) = flags w
  /\ tempoListeners (settle s w) = tempoListeners w
  /\ effects (settle s w) = effects w
  /\ global_setcpm (settle s w) = global_setcpm w
  /\ global_setCpm (settle s w) = global_setCpm w
  /\ (is_Some (initPromise w) -> is_Some (initPromise (settle s w)))
  /\ (initPromise w = Some Pending -> initPromise (settle s w) = Some s).
Proof.
  unfold settle. destruct (initPromise w) as [[| |err]|] eqn:Hp;
    repeat split; simpl; try done; rewrite ?Hp; try done.
  all: by intros [? ?].
Qed.

(** *** The invariant *)

Lemma initial_world_wf setcpm setCpm : world_wf (initial_world setcpm setCpm).
Proof. reflexivity. Qed.

Lemma initLaunchDarkly_wf clientId w :
  world_wf w -> world_wf (initLaunchDarkly clientId w).1.
Proof.
  unfold initLaunchDarkly. destruct (ldClient w) eqn:Hc; [done |].
  intros _. unfold world_wf. simpl. split; [by eexists |].
  exists []. repeat split; [apply NoDup_nil_2 |].
  intros l Hl. by apply elem_of_nil in Hl.
Qed.

(** [applyTempo] returns exactly when the tempo is computed, and then adds
    one effect. *)
Lemma applyTempo_inv l w w1 :
  applyTempo l w = Ok w1 ->
  exists cpm, getValue (flags w) l = Ok cpm
    /\ w1 = add_effect (tempo_effect (global_setcpm w) (global_setCpm w) cpm) w.
Proof.
  unfold applyTempo. destruct (getValue (flags w) l) as [cpm|e]; [| done].
  intros [= <-]. by exists cpm.
Qed.

Lemma applyTempo_wf l w w1 : applyTempo l w = Ok w1 -> world_wf w -> world_wf w1.
Proof. by intros (cpm & _ & ->)%applyTempo_inv. Qed.

Lemma register_tempo_wf l w : world_wf w -> world_wf (register_tempo l w).
Proof.
  unfold register_tempo.
  destruct (tempoListeners w !! tl_flagKey l) eqn:Hk; [done |].
  unfold world_wf. cbn [ldClient set_tempoListeners].
  destruct (ldClient w) as [handlers|] eqn:Hc; cbn; [| by rewrite Hc].
  intros [Hp (ls & -> & Hnd & Hall)]. split; [done |].
  exists (ls ++ [l]). repeat split.
  - rewrite map_app, <- ?app_assoc. done.
  - rewrite map_app. apply NoDup_app. repeat split; [done | | apply NoDup_singleton].
    intros k Hk1 Hk2. apply list_elem_of_singleton in Hk2 as ->.
    apply list_elem_of_fmap in Hk1 as (l' & Hkey & Hl').
    specialize (Hall l' Hl'). rewrite <- Hkey in Hall. congruence.
  - intros l' Hl'. apply elem_of_app in Hl' as [Hl'|Hl'].
    + destruct (decide (tl_flagKey l = tl_flagKey l')) as [Heq|Hne].
      * specialize (Hall l' Hl'). rewrite <- Heq in Hall. congruence.
      * rewrite lookup_insert_ne by done. by apply Hall.
    + apply list_elem_of_singleton in Hl' as ->. apply lookup_insert_eq.
Qed.

(** [setcpmFlag] returns exactly when its first [applyTempo()] does. *)
Lemma setcpmFlag_inv flagKey defaultValue divisor w w' pat :
  let l := {| tl_flagKey := flagKey;
              tl_defaultValue := param_default defaultValue (JNum 100);
              tl_divisor := param_default divisor (JNum 1) |} in
  setcpmFlag flagKey defaultValue divisor w = Ok (w', pat) ->
  exists cpm, getValue (flags w) l = Ok cpm
    /\ w' = register_tempo l
              (add_effect (tempo_effect (global_setcpm w) (global_setCpm w) cpm) w)
    /\ pat = setcpmFlag_pattern.
Proof.
  intros l. unfold setcpmFlag, applyTempo. fold l.
  destruct (getValue (flags w) l) as [cpm|e]; [| done].
  intros [= <- <-]. by exists cpm.
Qed.

Lemma setcpmFlag_returns flagKey defaultValue divisor w cpm :
  let l := {| tl_flagKey := flagKey;
              tl_defaultValue := param_default defaultValue (JNum 100);
              tl_divisor := param_default divisor (JNum 1) |} in
  getValue (flags w) l = Ok cpm ->
  setcpmFlag flagKey defaultValue divisor w
  = Ok (register_tempo l
          (add_effect (tempo_effect (global_setcpm w) (global_setCpm w) cpm) w),
        setcpmFlag_pattern).
Proof.
  intros l Hg. unfold setcpmFlag, applyTempo. fold l. by rewrite Hg.
Qed.

Lemma setcpmFlag_throws flagKey defaultValue divisor w e :
  let l := {| tl_flagKey := flagKey;
              tl_defaultValue := param_default defaultValue (JNum 100);
              tl_divisor := param_default divisor (JNum 1) |} in
  getValue (flags w) l = Throw e ->
  setcpmFlag flagKey defaultValue divisor w = Throw e.
Proof.
  intros l Hg. unfold setcpmFlag, applyTempo. fold l. by rewrite Hg.
Qed.

Lemma setcpmFlag_wf flagKey defaultValue divisor w w' pat :
  setcpmFlag flagKey defaultValue divisor w = Ok (w', pat) ->
  world_wf w -> world_wf w'.
Proof.
  intros (cpm & _ & -> & _)%setcpmFlag_inv Hw. by apply register_tempo_wf.
Qed.

Lemma deliver_wf ev w : world_wf w -> world_wf (deliver ev w).
Proof.
  intros Hw. pose proof Hw as Hw'. unfold world_wf in Hw'.
  destruct (ldClient w) as [handlers|] eqn:Hc.
  - destruct Hw' as [Hp (ls & -> & Hnd & Hall)].
    rewrite (deliver_shape ev w ls Hc).
    destruct ev as [allFlags|settings|err].
    + destruct (settle_fields Resolved (set_flags (allFlags ∪ flags w) w))
        as (Hc' & _ & Ht' & _ & _ & _ & Hp' & _).
      unfold world_wf. rewrite Hc', Ht'. cbn. rewrite Hc.
      split; [by apply Hp' | by exists ls].
    + unfold world_wf. cbn. rewrite Hc. split; [done | by exists ls].
    + destruct (settle_fields (Rejected err) (add_effect (ConsoleError failed_message) w))
        as (Hc' & _ & Ht' & _ & _ & _ & Hp' & _).
      unfold world_wf. rewrite Hc', Ht'. cbn. rewrite Hc.
      split; [by apply Hp' | by exists ls].
  - unfold deliver. by rewrite Hc.
Qed.

Lemma step_wf w a : world_wf w -> world_wf (step w a).
Proof.
  destruct a; simpl.
  - apply initLaunchDarkly_wf.
  - destruct (setcpmFlag flagKey defaultValue divisor w) as [[w' pat]|e] eqn:Hs;
      [| done].
    by apply (setcpmFlag_wf _ _ _ _ _ _ Hs).
  - apply deliver_wf.
Qed.

Lemma run_wf actions : forall w, world_wf w -> world_wf (run actions w).
Proof.
  unfold run. induction actions as [|a actions IH]; intros w Hw; [done |].
  simpl. by apply IH, step_wf.
Qed.

Lemma run_app actions1 actions2 w :
  run (actions1 ++ actions2) w = run actions2 (run actions1 w).
Proof. unfold run. apply foldl_app. Qed.

(** *** The listeners on the client *)

Lemma omap_tempo_handlers ls :
  omap (fun h => match h with OnChangeTempo l => Some l | _ => None end)
    (init_handlers ++ map OnChangeTempo ls) = ls.
Proof.
  simpl. induction ls as [|l ls IH]; [done |]. simpl. by rewrite IH.
Qed.

Lemma tempo_handlers_wf w :
  world_wf w ->
  NoDup (map tl_flagKey (tempo_handlers w))
  /\ (ldClient w <> None ->
      ldClient w = Some (init_handlers ++ map OnChangeTempo (tempo_handlers w))).
Proof.
  unfold world_wf, tempo_handlers.
  destruct (ldClient w) as [handlers|]; [| split; [apply NoDup_nil_2 | done]].
  intros [_ (ls & -> & Hnd & _)]. by rewrite omap_tempo_handlers.
Qed.

Lemma count_key_NoDup flagKey ls :
  NoDup (map tl_flagKey ls) ->
  length (filter (fun l => tl_flagKey l = flagKey) ls) <= 1.
Proof.
  induction ls as [|l ls IH]; [simpl; lia |].
  simpl. intros Hnd. apply NoDup_cons in Hnd as [Hl Hnd].
  rewrite filter_cons. case_decide as Hk; [| by apply IH].
  simpl.
  destruct (filter (fun l0 => tl_flagKey l0 = flagKey) ls) as [|l' rest] eqn:Hf;
    [simpl; lia |].
  exfalso.
  assert (l' ∈ filter (fun l0 => tl_flagKey l0 = flagKey) ls) as Hin
    by (rewrite Hf; apply list_elem_of_here).
  apply list_elem_of_filter in Hin as [Hk' Hl']. apply Hl.
  apply list_elem_of_fmap. exists l'. split; [congruence | done].
Qed.

Lemma count_key_member flagKey l ls :
  l ∈ ls -> tl_flagKey l = flagKey ->
  1 <= length (filter (fun l => tl_flagKey l = flagKey) ls).
Proof.
  intros Hl Hk.
  assert (l ∈ filter (fun l => tl_flagKey l = flagKey) ls) as Hin
    by (by apply list_elem_of_filter).
  destruct (filter (fun l0 => tl_flagKey l0 = flagKey) ls); simpl; [| lia].
  by apply elem_of_nil in Hin.
Qed.

(** In every world that satisfies the invariant a key has at most one
    listener on the client. *)
Lemma listener_count_wf flagKey w : world_wf w -> listener_count flagKey w <= 1.
Proof.
  intros Hw. unfold listener_count. apply count_key_NoDup.
  by apply tempo_handlers_wf.
Qed.

(** No callback touches the client or the listener registry, and none
    removes a key from the store. *)
Lemma run_handler_fields ev w h w' :
  run_handler ev w h = Ok w' ->
  ldClient w' = ldClient w
  /\ tempoListeners w' = tempoListeners w
  /\ dom (flags w) ⊆ dom (flags w').
Proof.
  destruct h, ev; simpl; try (intros [= <-]; done).
  - intros [= <-].
    destruct (settle_fields Resolved (set_flags (allFlags ∪ flags w) w))
      as (-> & -> & -> & _).
    cbn. repeat split. rewrite dom_union. apply union_subseteq_r.
  - intros [= <-]. cbn. repeat split. rewrite dom_union. apply union_subseteq_r.
  - intros [= <-].
    by destruct (settle_fields (Rejected err) (add_effect (ConsoleError failed_message) w))
      as (-> & -> & -> & _).
  - destruct (change_names settings (tl_flagKey l)); [| intros [= <-]; done].
    by intros (cpm & _ & ->)%applyTempo_inv.
Qed.

Lemma emit_fields ev handlers : forall w,
  ldClient (emit ev w handlers) = ldClient w
  /\ tempoListeners (emit ev w handlers) = tempoListeners w
  /\ dom (flags w) ⊆ dom (flags (emit ev w handlers)).
Proof.
  induction handlers as [|h handlers IH]; intros w; [done |].
  simpl. destruct (run_handler ev w h) as [w'|e] eqn:Hh; [| done].
  destruct (run_handler_fields _ _ _ _ Hh) as (<- & <- & Hd).
  destruct (IH w') as (-> & -> & Hd'). repeat split. by etrans.
Qed.

Lemma deliver_ldClient ev w : ldClient (deliver ev w) = ldClient w.
Proof.
  unfold deliver. destruct (ldClient w) as [handlers|] eqn:Hc; [| done].
  rewrite <- Hc. apply emit_fields.
Qed.

Lemma register_tempo_keeps l0 l w :
  l ∈ tempo_handlers w -> l ∈ tempo_handlers (register_tempo l0 w).
Proof.
  unfold register_tempo. destruct (tempoListeners w !! tl_flagKey l0); [done |].
  unfold tempo_handlers. cbn [ldClient set_tempoListeners].
  destruct (ldClient w) as [handlers|]; intros Hl;
    [| by apply elem_of_nil in Hl].
  cbn [ldClient set_ldClient]. rewrite omap_app, elem_of_app. by left.
Qed.

Lemma register_tempo_adds l w :
  ldClient w <> None -> tempoListeners w !! tl_flagKey l = None ->
  l ∈ tempo_handlers (register_tempo l w).
Proof.
  intros Hc Hk. unfold register_tempo. rewrite Hk.
  unfold tempo_handlers. cbn [ldClient set_tempoListeners].
  destruct (ldClient w) as [handlers|]; [| done].
  cbn [ldClient set_ldClient]. rewrite omap_app, elem_of_app. right.
  apply list_elem_of_here.
Qed.

(** A listener that is on the client stays there. *)
Lemma step_keeps_listener l w a :
  l ∈ tempo_handlers w -> l ∈ tempo_handlers (step w a).
Proof.
  intros Hl. destruct a as [clientId|flagKey defaultValue divisor|ev].
  - unfold step, initLaunchDarkly.
    destruct (ldClient w) eqn:Hc; [done |].
    unfold tempo_handlers in Hl. rewrite Hc in Hl. by apply elem_of_nil in Hl.
  - unfold step.
    destruct (setcpmFlag flagKey defaultValue divisor w) as [[w' pat]|e] eqn:Hs;
      [| done].
    apply setcpmFlag_inv in Hs as (cpm & _ & -> & _).
    by apply register_tempo_keeps.
  - unfold step, tempo_handlers in *. by rewrite deliver_ldClient.
Qed.

Lemma run_keeps_listener l actions : forall w,
  l ∈ tempo_handlers w -> l ∈ tempo_handlers (run actions w).
Proof.
  unfold run. induction actions as [|a actions IH]; intros w Hl; [done |].
  simpl. by apply IH, step_keeps_listener.
Qed.

(** The call of [setcpmFlag] that finds the client and no entry for its key
    puts its listener on the client, once it returns. *)
Lemma setcpmFlag_registers flagKey defaultValue divisor w w' pat :
  setcpmFlag flagKey defaultValue divisor w = Ok (w', pat) ->
  ldClient w <> None -> tempoListeners w !! flagKey = None ->
  {| tl_flagKey := flagKey;
     tl_defaultValue := param_default defaultValue (JNum 100);
     tl_divisor := param_default divisor (JNum 1) |}
  ∈ tempo_handlers w'.
Proof.
  intros (cpm & _ & -> & _)%setcpmFlag_inv Hc Hk. by apply register_tempo_adds.
Qed.

Lemma change_names_own (settings : gmap string FlagChange) flagKey :
  is_Some (settings !! flagKey) -> change_names settings flagKey = true.
Proof. intros [ch Hch]. unfold change_names. by rewrite Hch. Qed.

Lemma change_names_inherited (settings : gmap string FlagChange) flagKey v :
  inherited flagKey = Some v -> change_names settings flagKey = true.
Proof.
  intros Hinh. unfold change_names. destruct (settings !! flagKey); [done |].
  rewrite Hinh. by destruct (inherited_truthy _ _ Hinh).
Qed.

Lemma change_names_false (settings : gmap string FlagChange) flagKey :
  settings !! flagKey = None -> inherited flagKey = None ->
  change_names settings flagKey = false.
Proof. intros Hs Hinh. unfold change_names. by rewrite Hs, Hinh. Qed.

(** In a round in which no listener throws, a listener whose key the
    notification names applies its tempo. *)
Lemma tempo_reactions_member settings w l ls :
  (forall l', l' ∈ ls -> change_names settings (tl_flagKey l') = true ->
     exists cpm, getValue (flags w) l' = Ok cpm) ->
  l ∈ ls -> change_names settings (tl_flagKey l) = true ->
  exists pre post cpm,
    getValue (flags w) l = Ok cpm
    /\ tempo_reactions settings w ls
       = pre ++ tempo_effect (global_setcpm w) (global_setCpm w) cpm :: post.
Proof.
  intros Hcalm Hl Hn. induction ls as [|l0 ls IH]; [by apply elem_of_nil in Hl |].
  cbn [tempo_reactions].
  apply elem_of_cons in Hl as [<-|Hl].
  - rewrite Hn. destruct (Hcalm l (list_elem_of_here _ _) Hn) as [cpm Hcpm].
    rewrite Hcpm. by exists [], (tempo_reactions settings w ls), cpm.
  - destruct IH as (pre & post & cpm & Hcpm & ->); [| done |].
    { intros l' Hl'. apply Hcalm. by apply list_elem_of_further. }
    destruct (change_names settings (tl_flagKey l0)) eqn:Hn0.
    + destruct (Hcalm l0 (list_elem_of_here _ _) Hn0) as [cpm0 ->].
      by exists (tempo_effect (global_setcpm w) (global_setCpm w) cpm0 :: pre), post, cpm.
    + by exists pre, post, cpm.
Qed.

(** *** setcpmFlag *)

(** The listener of the call that makes the entry of its key, with the
    client created, is the one listener of the key ever after, and it
    applies its tempo in every round that names its key and in which no
    listener throws. *)
Lemma registered_listener_reacts (setcpm setCpm : bool)
    (before after : list Action) (flagKey : string)
    (defaultValue divisor : JsValue) (settings : gmap string FlagChange)
    (w0' : World) (pat : Pattern) :
  let w0 := run before (initial_world setcpm setCpm) in
  let l := {| tl_flagKey := flagKey;
              tl_defaultValue := param_default defaultValue (JNum 100);
              tl_divisor := param_default divisor (JNum 1) |} in
  setcpmFlag flagKey defaultValue divisor w0 = Ok (w0', pat) ->
  let w1 := run after w0' in
  let store := (current <$> settings) ∪ flags w1 in
  ldClient w0 <> None ->
  tempoListeners w0 !! flagKey = None ->
  change_names settings flagKey = true ->
  listener_count flagKey w1 = 1
  /\ ((forall l', l' ∈ tempo_handlers w1 ->
         change_names settings (tl_flagKey l') = true ->
         exists cpm', getValue store l' = Ok cpm') ->
      exists pre post cpm,
        getValue store l = Ok cpm
        /\ effects (deliver (Change settings) w1)
           = effects w1 ++ pre
               ++ tempo_effect (global_setcpm w1) (global_setCpm w1) cpm
               :: post).
Proof.
  intros w0 l Hret w1 store Hc Hk Hch.
  assert (world_wf w1) as Hw1.
  { apply run_wf, (setcpmFlag_wf _ _ _ _ _ _ Hret), run_wf, initial_world_wf. }
  assert (l ∈ tempo_handlers w1) as Hl
    by (by apply run_keeps_listener, (setcpmFlag_registers _ _ _ _ _ _ Hret)).
  split.
  - apply Nat.le_antisymm; [by apply listener_count_wf |].
    unfold listener_count. by apply (count_key_member _ l).
  - intros Hcalm.
    destruct (tempo_handlers_wf w1 Hw1) as [_ Hshape].
    assert (ldClient w1 <> None) as Hc1.
    { unfold tempo_handlers in Hl. destruct (ldClient w1); [done |].
      by apply elem_of_nil in Hl. }
    rewrite (deliver_shape _ _ _ (Hshape Hc1)). cbn [effects add_effects].
    destruct (tempo_reactions_member settings
                (set_flags ((current <$> settings) ∪ flags w1) w1)
                l (tempo_handlers w1) Hcalm Hl Hch)
      as (pre & post & cpm & Hcpm & Hre).
    exists pre, post, cpm. split; [exact Hcpm |].
    exact (f_equal (app (effects w1)) Hre).
Qed.

(** Claim C8, as amended.  In every world that a run of calls and provider
    events produces, a flag key has at most one tempo listener on the
    client, however often [setcpmFlag] is called.  And when the call that
    makes the entry of its key in [tempoListeners] finds the client created
    and returns, its listener is on the client ever after, exactly one for
    the key, and every later change notification that carries the key makes
    it run that call's compute-and-apply step on the store as the
    notification has updated it, in a round in which no tempo listener
    throws. *)
Theorem tempo_listener_once_and_reactive (setcpm setCpm : bool)
    (before after : list Action) (flagKey : string)
    (defaultValue divisor : JsValue) (settings : gmap string FlagChange) :
  let w0 := run before (initial_world setcpm setCpm) in
  let l := {| tl_flagKey := flagKey;
              tl_defaultValue := param_default defaultValue (JNum 100);
              tl_divisor := param_default divisor (JNum 1) |} in
  (forall actions k,
     listener_count k (run actions (initial_world setcpm setCpm)) <= 1)
  /\ (forall w0' pat,
      setcpmFlag flagKey defaultValue divisor w0 = Ok (w0', pat) ->
      let w1 := run after w0' in
      let store := (current <$> settings) ∪ flags w1 in
      ldClient w0 <> None ->
      tempoListeners w0 !! flagKey = None ->
      is_Some (settings !! flagKey) ->
      listener_count flagKey w1 = 1
      /\ ((forall l', l' ∈ tempo_handlers w1 ->
             change_names settings (tl_flagKey l') = true ->
             exists cpm', getValue store l' = Ok cpm') ->
          exists pre post cpm,
            getValue store l = Ok cpm
            /\ effects (deliver (Change settings) w1)
               = effects w1 ++ pre
                   ++ tempo_effect (global_setcpm w1) (global_setCpm w1) cpm
                   :: post)).
Proof.
  intros w0 l. split.
  - intros actions k. apply listener_count_wf, run_wf, initial_world_wf.
  - intros w0' pat Hret w1 store Hc Hk Hch.
    apply (registered_listener_reacts setcpm setCpm before after flagKey
             defaultValue divisor settings w0' pat Hret Hc Hk).
    by apply change_names_own.
Qed.

(** *** initLaunchDarkly *)

(** A failure never touches the store, whatever the world. *)
Lemma deliver_failed_flags err w : flags (deliver (Failed err) w) = flags w.
Proof.
  unfold deliver. destruct (ldClient w) as [handlers|]; [| done].
  revert w. induction handlers as [|h handlers IH]; intros w; [done |].
  destruct h; simpl; rewrite ?IH; try done. simpl.
  by destruct (settle_fields (Rejected err)
                 (add_effect (ConsoleError failed_message) w)) as (_ & -> & _).
Qed.

(** Claim C9.  While the promise that [initLaunchDarkly] returned is
    pending, a failure of the provider rejects it with the error of the
    failure and logs the error; the flag store afterwards is the flag store
    before (no key added, removed or changed), and so are the client and
    the listener registry.  The delivery is a total function: nothing is
    thrown. *)
Theorem init_failure_rejects_and_keeps_store (setcpm setCpm : bool)
    (actions : list Action) (err : JsValue) :
  let w := run actions (initial_world setcpm setCpm) in
  initPromise w = Some Pending ->
  let w' := deliver (Failed err) w in
  initPromise w' = Some (Rejected err)
  /\ flags w' = flags w
  /\ effects w' = effects w ++ [ConsoleError failed_message]
  /\ ldClient w' = ldClient w
  /\ tempoListeners w' = tempoListeners w.
Proof.
  intros w Hp w'.
  assert (world_wf w) as Hw by apply run_wf, initial_world_wf.
  destruct (tempo_handlers_wf w Hw) as [_ Hshape].
  assert (ldClient w <> None) as Hc.
  { intros Hc. unfold world_wf in Hw. rewrite Hc in Hw. congruence. }
  unfold w'. rewrite (deliver_shape _ _ _ (Hshape Hc)).
  destruct (settle_fields (Rejected err) (add_effect (ConsoleError failed_message) w))
    as (-> & -> & -> & -> & _ & _ & _ & Hrej).
  by rewrite Hrej.
Qed.

(** The pattern that [setcpmFlag] returns has an event with an empty
    object as payload for each event of the constant pattern [pure(0)]; it
    throws where that one throws. *)
Lemma setcpmFlag_pattern_events state :
  setcpmFlag_pattern state
  = res_bind (pure (JNum 0) state)
      (fun haps => Ok (map (fun hap => with_value hap (JObj ∅)) haps)).
Proof.
  unfold setcpmFlag_pattern, withValue, withHap.
  destruct (pure (JNum 0) state) as [haps|e]; [| done]. simpl.
  induction haps as [|hap haps IH]; [done |].
  simpl. by rewrite IH.
Qed.

(** *** Absent keys *)

(** X25.  For a key that the store does not hold and that names no member
    of [Object.prototype], every bridge answers, for every query window, as
    its body does on the default it was given (the default of the parameter
    when the caller passed none): [flag], [polySpeed], [drumKit],
    [bassSound] and [leadSound] (event by event and as patterns), [toggle],
    [getLeadArrangement], and [setcpmFlag], whose tempo is computed from the
    default. *)
Theorem absent_flag_is_default (w : World) (flagKey : string) :
  flags w !! flagKey = None ->
  inherited flagKey = None ->
  (forall d c state,
     flag (flags w) flagKey d c state = flag_on flagKey d c state)
  /\ (forall self d state,
     polySpeed (flags w) self flagKey d state
     = polySpeed_on self (param_default d (JNum 1)) state)
  /\ (forall self d state,
     drumKit (flags w) self flagKey d state
     = withHap (drumKit_hap_on (param_default d drumKit_default)) self state)
  /\ (forall self d state,
     bassSound (flags w) self flagKey d state
     = withHap (bassSound_hap_on (param_default d bassSound_default)) self state)
  /\ (forall self d state,
     leadSound (flags w) self flagKey d state
     = withHap (leadSound_hap_on (param_default d leadSound_default)) self state)
  /\ (forall self d state,
     toggle (flags w) self flagKey d state
     = toggle_on self (param_default d (JBool true)) state)
  /\ (forall d variations c state,
     getLeadArrangement (flags w) flagKey d variations c state
     = getLeadArrangement_on d d variations c state)
  /\ (forall d divisor,
     let l := {| tl_flagKey := flagKey;
                 tl_defaultValue := param_default d (JNum 100);
                 tl_divisor := param_default divisor (JNum 1) |} in
     setcpmFlag flagKey d divisor w
     = res_bind
         (getValue_on (param_default d (JNum 100)) (param_default divisor (JNum 1)))
         (fun cpm =>
            Ok (register_tempo l
                  (add_effect
                     (tempo_effect (global_setcpm w) (global_setCpm w) cpm) w),
                setcpmFlag_pattern))).
Proof.
  intros Habs Hinh. repeat split; intros.
  - unfold flag. by rewrite read_flag_absent.
  - unfold polySpeed. by rewrite read_flag_absent.
  - unfold drumKit, drumKit_hap. by rewrite read_flag_absent.
  - unfold bassSound, bassSound_hap. by rewrite read_flag_absent.
  - unfold leadSound, leadSound_hap. by rewrite read_flag_absent.
  - unfold toggle. by rewrite read_flag_absent.
  - unfold getLeadArrangement. by rewrite read_flag_absent.
  - unfold setcpmFlag, applyTempo, getValue. cbn [tl_flagKey tl_defaultValue tl_divisor].
    rewrite read_flag_absent by done.
    by destruct (getValue_on _ _).
Qed.

(** Claim C3, where the code differs.  The store is a plain object, so a
    key that names a method of [Object.prototype] and has no entry in the
    store reads as that method, whatever the default: the value read is not
    the default, and a bridge does not answer as it does on its default.
    [toggle] with the default [false] lets every event of the base pattern
    through, where its body on the default answers with no event; [flag]
    answers with the constant pattern of the method; and the tempo of
    [setcpmFlag] is computed from the method, not from the default. *)
Theorem inherited_key_is_not_defaulted (flags : gmap string JsValue)
    (flagKey : string) :
  flagKey ∈ object_prototype_functions ->
  flags !! flagKey = None ->
  (forall d, read_flag flags flagKey d = JFun flagKey)
  /\ (forall self state,
        toggle flags self flagKey (JBool false) state = self state
        /\ toggle_on self (param_default (JBool false) (JBool true)) state = Ok [])
  /\ (forall d c state,
        flag flags flagKey d c state = (pure (JFun flagKey) state, c, []))
  /\ (forall d divisor,
        getValue flags
          {| tl_flagKey := flagKey; tl_defaultValue := d; tl_divisor := divisor |}
        = getValue_on (JFun flagKey) divisor).
Proof.
  intros Hin Habs.
  assert (forall d, read_flag flags flagKey d = JFun flagKey) as Hread.
  { intros d. apply read_flag_inherited; [done | by apply inherited_function]. }
  split; [done |]. split; [| split].
  - intros self state. unfold toggle. by rewrite Hread.
  - intros d c state. unfold flag. by rewrite Hread.
  - intros d divisor. unfold getValue.
    cbn [tl_flagKey tl_defaultValue tl_divisor]. by rewrite Hread.
Qed.

End ModuleState.

(* ===================================================================== *)
(** ** The bridges at work                                                *)
(* ===================================================================== *)

Section Examples.
#[local] Existing Instance Reference.host.
#[local] Existing Instance Reference.engine.

(** A window that does not end before it begins touches a cycle. *)
Lemma spanCycles_nonempty (sp : TimeSpan) :
  (begin sp <= end_ sp)%Q -> Reference.spanCycles sp <> [].
Proof.
  intros Hle. unfold Reference.spanCycles.
  destruct (Qeq_bool (begin sp) (end_ sp)) eqn:Heq; [done |].
  cbn [Reference.spanCycles_from].
  destruct (Qle_bool (end_ sp) (begin sp)) eqn:Hge.
  - apply Qle_bool_iff in Hge.
    assert (begin sp == end_ sp)%Q as Hq by (by apply Qle_antisym).
    apply Qeq_bool_iff in Hq. congruence.
  - by destruct (Qeq_bool (Reference.sam (begin sp)) (Reference.sam (end_ sp))).
Qed.

(** Claim C1, where the code differs.  The pattern that [setcpmFlag]
    returns is not silent.  The call returns whenever its tempo is
    computed, and whatever the arguments and the module state with which it
    returns, for every query window that does not end before it begins the
    query of the pattern returned answers with at least one event, and each
    event it answers with carries an empty object. *)
Theorem setcpmFlag_pattern_not_silent (w : World) (flagKey : string)
    (defaultValue divisor : JsValue) (state : State) :
  (begin (span state) <= end_ (span state))%Q ->
  (forall cpm,
     getValue (flags w)
       {| tl_flagKey := flagKey;
          tl_defaultValue := param_default defaultValue (JNum 100);
          tl_divisor := param_default divisor (JNum 1) |} = Ok cpm ->
     exists w', setcpmFlag flagKey defaultValue divisor w = Ok (w', setcpmFlag_pattern))
  /\ (forall w' pat,
        setcpmFlag flagKey defaultValue divisor w = Ok (w', pat) ->
        exists hap haps,
          pat state = Ok (hap :: haps)
          /\ Forall (fun h => value h = JObj ∅) (hap :: haps)).
Proof.
  intros Hle. split.
  - intros cpm Hcpm. eexists. by apply setcpmFlag_returns.
  - intros w' pat (cpm & _ & _ & ->)%setcpmFlag_inv.
    rewrite setcpmFlag_pattern_events.
    change (pure (JNum 0) state) with (Reference.pure (JNum 0) state).
    unfold Reference.pure. cbn [res_bind].
    pose proof (spanCycles_nonempty (span state) Hle) as Hne.
    destruct (Reference.spanCycles (span state)) as [|sub subs]; [done |].
    cbn [map]. eexists _, _. split; [reflexivity |].
    constructor; [done |]. apply Forall_forall. intros h Hh.
    apply list_elem_of_fmap in Hh as (h' & -> & _). done.
Qed.

(** The first cycle is such a window, and [setcpmFlag('globalTempo', 110, 4)]
    returns in the module as it is loaded. *)
Lemma setcpmFlag_pattern_first_cycle :
  (begin (span Reference.cycle0) <= end_ (span Reference.cycle0))%Q
  /\ exists w' pat hap haps,
      setcpmFlag "globalTempo" (JNum 110) (JNum 4) (initial_world true false)
      = Ok (w', pat)
      /\ pat Reference.cycle0 = Ok (hap :: haps)
      /\ Forall (fun h => value h = JObj ∅) (hap :: haps).
Proof.
  split; [discriminate |].
  destruct (setcpmFlag_pattern_not_silent (initial_world true false) "globalTempo"
              (JNum 110) (JNum 4) Reference.cycle0) as [Hreturns Hevents];
    [discriminate |].
  destruct (Hreturns (JNum 27.5) eq_refl) as [w' Hw'].
  destruct (Hevents w' setcpmFlag_pattern Hw') as (hap & haps & Hq & Hall).
  by exists w', setcpmFlag_pattern, hap, haps.
Defined.

(** There the answer is one event, which spans the cycle. *)
Example setcpmFlag_pattern_cycle0 :
  res_bind (setcpmFlag "globalTempo" (JNum 110) (JNum 4) (initial_world true false))
    (fun r => r.2 Reference.cycle0)
  = Ok [{| whole := Some Reference.unit_span; part := Reference.unit_span;
           value := JObj ∅ |}].
Proof. reflexivity. Qed.

(** The tempo it applies is 27.5 for 110 and the divisor 4. *)
Example setcpmFlag_tempo :
  effects (run [CallSetcpmFlag "t" (JNum 110) (JNum 4)] (initial_world true false))
  = [CallSetcpm (JNum 27.5)].
Proof. reflexivity. Qed.

(** A flag value with a member [toString] of its own has no conversion to a
    number: the call throws and registers nothing. *)
Example setcpmFlag_throws_on_object :
  let w := set_flags {["t" := JObj {["toString" := JNum 1]}]} (initial_world true false) in
  setcpmFlag "t" (JNum 110) (JNum 4) w = Throw Reference.conversion_error
  /\ run [CallSetcpmFlag "t" (JNum 110) (JNum 4)] w = w.
Proof. split; reflexivity. Qed.

Example polySpeed_16_4 :
  polySpeed {["melodySpeed" := JArr [JNum 16; JNum 4]]} (pure (JStr "c")) "melodySpeed"
    (JNum 1) {| span := {| begin := 0 # 1; end_ := 1 # 8 |} |}
  = Ok [ {| whole := Some {| begin := 0 # 1; end_ := 1 # 16 |};
            part := {| begin := 0 # 1; end_ := 1 # 16 |}; value := JStr "c" |};
         {| whole := Some {| begin := 1 # 16; end_ := 1 # 8 |};
            part := {| begin := 1 # 16; end_ := 1 # 8 |}; value := JStr "c" |};
         {| whole := Some {| begin := 0 # 1; end_ := 1 # 4 |};
            part := {| begin := 0 # 1; end_ := 1 # 8 |}; value := JStr "c" |} ].
Proof. vm_compute. reflexivity. Qed.

Example toggle_explicit_false :
  toggle {["drumsEnabled" := JBool false]} (pure (JStr "bd")) "drumsEnabled"
    (JBool true) Reference.cycle0 = Ok [].
Proof. reflexivity. Qed.

Example drumKit_gain_1_2 :
  res_bind
    (drumKit_hap {["kit" := JObj {["gain" := JNum 1.2]}]} "kit" JUndefined
       (Reference.hap_of {["s" := JStr "bd"; "gain" := JNum 1]}))
    (fun hap => Ok (member (value hap) "gain"))
  = Ok (JNum 1.2).
Proof. vm_compute. reflexivity. Qed.

(** The selector of the guide: techno, techno again, epiano, techno. *)
Lemma lead_selector_techno_epiano :
  factory_calls
    (lead_session "leadArrangement" (JStr "original") Reference.lead_variations
       [ ({["leadArrangement" := JStr "techno"]}, Reference.cycle0);
         ({["leadArrangement" := JStr "techno"]}, Reference.cycle0);
         ({["leadArrangement" := JStr "epiano"]}, Reference.cycle0);
         ({["leadArrangement" := JStr "techno"]}, Reference.cycle0) ]
       lead_new).2
  = ["techno"; "epiano"; "techno"].
Proof.
  destruct (lead_selector_two_states "leadArrangement" (JStr "original")
              Reference.lead_variations) as (_ & _ & _ & Hsession & _).
  rewrite (Hsession _ ["techno"; "techno"; "epiano"; "techno"]).
  - reflexivity.
  - repeat constructor; eexists; reflexivity.
Defined.

(** An absent key and the default [false]: [toggle] is silent. *)
Lemma absent_flag_is_default_toggle :
  flags (initial_world true false) !! "drumsEnabled" = None
  /\ inherited "drumsEnabled" = None
  /\ toggle (flags (initial_world true false)) (pure (JStr "bd")) "drumsEnabled"
       (JBool false) Reference.cycle0 = Ok [].
Proof.
  split; [reflexivity |]. split; [reflexivity |].
  destruct (absent_flag_is_default (initial_world true false) "drumsEnabled"
              eq_refl eq_refl)
    as (_ & _ & _ & _ & _ & Htoggle & _).
  rewrite Htoggle. reflexivity.
Defined.

(** The key [constructor] in the empty store and the default [false]:
    [toggle] is not silent but answers with the event of the base
    pattern. *)
Lemma toggle_constructor_is_not_defaulted :
  "constructor" ∈ object_prototype_functions
  /\ (∅ : gmap string JsValue) !! "constructor" = None
  /\ toggle ∅ (pure (JStr "bd")) "constructor" (JBool false) Reference.cycle0
     = Ok [{| whole := Some Reference.unit_span; part := Reference.unit_span;
              value := JStr "bd" |}].
Proof.
  assert ("constructor" ∈ object_prototype_functions) as Hin
    by apply list_elem_of_here.
  split; [exact Hin |]. split; [reflexivity |].
  destruct (inherited_key_is_not_defaulted ∅ "constructor" Hin)
    as (_ & Htoggle & _); [reflexivity |].
  destruct (Htoggle (pure (JStr "bd")) Reference.cycle0) as [-> _]. reflexivity.
Defined.

(** An event of gain 2 and the bundle of gain 1.5, given as JSON text: the
    gain becomes 3.  With a bundle that gives no gain the event keeps its
    gain of 2. *)
Lemma bundle_gain_2_times_1_5 :
  (exists hap',
     drumKit_hap {["kit" := JStr Reference.gain_json]} "kit" JUndefined
       (Reference.hap_of {["s" := JStr "bd"; "gain" := JNum 2]}) = Ok hap'
     /\ own_props (value hap') !! "gain" = Some (JNum 3))
  /\ (exists hap',
        leadSound_hap {["lead" := JObj {["sound" := JStr "square"]}]} "lead" JUndefined
          (Reference.hap_of {["note" := JStr "c4"; "gain" := JNum 2]}) = Ok hap'
        /\ own_props (value hap') !! "gain" = Some (JNum 2)).
Proof.
  split.
  - destruct (bundle_gain_multiplies {["kit" := JStr Reference.gain_json]} "kit"
                JUndefined
                (Reference.hap_of {["s" := JStr "bd"; "gain" := JNum 2]}) eq_refl)
      as (Hdrum & _ & _ & _).
    exact (Hdrum eq_refl).
  - destruct (bundle_gain_multiplies {["lead" := JObj {["sound" := JStr "square"]}]}
                "lead" JUndefined
                (Reference.hap_of {["note" := JStr "c4"; "gain" := JNum 2]}) eq_refl)
      as (_ & _ & Hlead & _).
    exact (Hlead eq_refl).
Defined.

(** A bundle with a sound and a gain: [bassSound] sets [s] to the sound of
    the bundle and keeps the [lpf] of the event.  A bundle with nothing but
    a filter: [bassSound] sets [s] to the built-in name and [lpf] to the
    filter of the bundle. *)
Lemma bassSound_sets_s_keeps_lpf :
  (exists hap',
     bassSound_hap
       {["bass" := JObj {["sound" := JStr "sawtooth"; "gain" := JNum 1.5]}]}
       "bass" JUndefined
       (Reference.hap_of {["s" := JStr "piano"; "lpf" := JNum 500]}) = Ok hap'
     /\ own_props (value hap') !! "s" = Some (JStr "sawtooth")
     /\ own_props (value hap') !! "lpf" = Some (JNum 500))
  /\ (exists hap',
        bassSound_hap {["bass" := JObj {["lpf" := JNum 900]}]} "bass" JUndefined
          (Reference.hap_of {["s" := JStr "piano"; "lpf" := JNum 500]}) = Ok hap'
        /\ own_props (value hap') !! "s" = Some (JStr "gm_synth_bass_2")
        /\ own_props (value hap') !! "lpf" = Some (JNum 900)).
Proof.
  split.
  - destruct (sound_overwritten_filters_kept
                {["bass" := JObj {["sound" := JStr "sawtooth"; "gain" := JNum 1.5]}]}
                "bass" JUndefined
                (Reference.hap_of {["s" := JStr "piano"; "lpf" := JNum 500]}) eq_refl)
      as (Hbass & _).
    destruct (Hbass eq_refl (JNum 1.5) eq_refl)
      as (hap' & Hok & Hsound & _ & _ & Hlpf).
    exists hap'. split; [exact Hok |]. split.
    + apply Hsound. split; [reflexivity | discriminate].
    + rewrite Hlpf by (left; reflexivity). reflexivity.
  - destruct (sound_overwritten_filters_kept
                {["bass" := JObj {["lpf" := JNum 900]}]} "bass" JUndefined
                (Reference.hap_of {["s" := JStr "piano"; "lpf" := JNum 500]}) eq_refl)
      as (Hbass & _).
    destruct (Hbass eq_refl (JNum 1) eq_refl)
      as (hap' & Hok & _ & Hs & Hfilter & _).
    exists hap'. split; [exact Hok |]. split.
    + apply Hs. left. reflexivity.
    + apply Hfilter. split; [reflexivity | discriminate].
Defined.

(** A scale whose bracket is not closed: the query falls back to the raw
    string and the fresh cache stays fresh. *)
Lemma flag_parse_failure_unclosed_bracket :
  flag {["scale" := JStr "<g:minor"]} "scale" (JStr "<c:major>") flag_new Reference.cycle0
  = (pure (JStr "<g:minor") Reference.cycle0, flag_new,
     [CallMini "<g:minor"; ConsoleError (flag_parse_error "scale")]).
Proof.
  refine (proj1 (flag_parse_failure_keeps_cache {["scale" := JStr "<g:minor"]}
                   "scale" (JStr "<c:major>") flag_new Reference.cycle0 "<g:minor" _ _ _ _)).
  - apply flag_new_valid.
  - reflexivity.
  - reflexivity.
  - reflexivity.
Defined.

(** The client is created, then [setcpmFlag('t', 110, 4)] is called twice:
    one listener, and the change of [t] to 120 sets the tempo to 30. *)
Lemma tempo_listener_after_init :
  exists w0' pat,
    setcpmFlag "t" (JNum 110) (JNum 4)
      (run [CallInit "client-id"] (initial_world true false)) = Ok (w0', pat)
    /\ let w1 := run [CallSetcpmFlag "t" (JNum 110) (JNum 4)] w0' in
       listener_count "t" w1 = 1
       /\ exists pre post,
           effects (deliver (Reference.change_of "t" (JNum 110) (JNum 120)) w1)
           = effects w1 ++ pre ++ CallSetcpm (JNum 30) :: post.
Proof.
  eexists _, _. split; [reflexivity |].
  destruct (tempo_listener_once_and_reactive true false [CallInit "client-id"]
              [CallSetcpmFlag "t" (JNum 110) (JNum 4)] "t" (JNum 110) (JNum 4)
              {["t" := {| current := JNum 120; previous := JNum 110 |}]})
    as [_ Hreactive].
  destruct (Hreactive _ _ eq_refl) as [Hcount Hrun].
  - discriminate.
  - reflexivity.
  - eexists. reflexivity.
  - split; [exact Hcount |].
    destruct Hrun as (pre & post & cpm & Hcpm & Heffects).
    + intros l' Hl' _. apply list_elem_of_singleton in Hl' as ->.
      eexists. reflexivity.
    + injection Hcpm as <-. by exists pre, post.
Defined.

(** Claim C8 as stated fails.  [setcpmFlag('t', 110, 4)] is called before
    the client exists and the client is created afterwards: no listener is
    on the client, and the change of [t] to 120 reaches the store but runs
    no tempo step.  Calling [setcpmFlag('t', 110, 4)] once more changes
    nothing of that.  And with the client created first and listeners for
    [a] and for [t], a notification that changes [t] to 120 and [a] to an
    object without a conversion to a number makes the listener of [a] throw:
    the round ends there and the listener of [t] does not run. *)
Lemma tempo_listener_lost_without_client :
  let change := Reference.change_of "t" (JNum 110) (JNum 120) in
  let w :=
    run [CallSetcpmFlag "t" (JNum 110) (JNum 4); CallInit "client-id"]
      (initial_world true false) in
  let w' := run [CallSetcpmFlag "t" (JNum 110) (JNum 4)] w in
  let both :=
    Change {["a" := {| current := JObj {["toString" := JNum 1]};
                       previous := JNum 100 |};
             "t" := {| current := JNum 120; previous := JNum 110 |}]} in
  let w2 :=
    run [CallInit "client-id"; CallSetcpmFlag "a" (JNum 100) (JNum 1);
         CallSetcpmFlag "t" (JNum 110) (JNum 4)]
      (initial_world true false) in
  (listener_count "t" w = 0
   /\ flags (deliver change w) !! "t" = Some (JNum 120)
   /\ effects (deliver change w) = effects w)
  /\ (listener_count "t" w' = 0
      /\ flags (deliver change w') !! "t" = Some (JNum 120)
      /\ effects (deliver change w') = effects w')
  /\ (listener_count "t" w2 = 1
      /\ flags (deliver both w2) !! "t" = Some (JNum 120)
      /\ effects (deliver both w2)
         = effects w2 ++ [Uncaught Reference.conversion_error]).
Proof. vm_compute. repeat split; reflexivity. Qed.

(** The client is created and the provider fails. *)
Lemma init_failure_after_init :
  let w := run [CallInit "client-id"] (initial_world true false) in
  initPromise w = Some Pending
  /\ initPromise (deliver (Failed (JStr "network")) w)
     = Some (Rejected (JStr "network"))
  /\ flags (deliver (Failed (JStr "network")) w) = flags w.
Proof.
  split; [reflexivity |].
  destruct (init_failure_rejects_and_keeps_store true false [CallInit "client-id"]
              (JStr "network") eq_refl) as (Hrej & Hflags & _).
  split; [exact Hrej | exact Hflags].
Defined.

End Examples.

(* ===================================================================== *)
(** ** Sessions of the scalar bridge                                      *)
(* ===================================================================== *)

Section ScalarSessions.
Context {H : Host} {E : Engine}.

Lemma flag_session_valid key d queries : forall c,
  flag_cache_valid c -> flag_cache_valid (flag_session key d queries c).1.
Proof.
  induction queries as [|[flags state] queries IH]; intros c Hc; [done |].
  cbn [flag_session].
  pose proof (flag_keeps_cache_valid flags key d c state Hc) as Hc1.
  destruct (flag flags key d c state) as [[r c1] log1]. simpl in Hc1.
  specialize (IH c1 Hc1).
  by destruct (flag_session key d queries c1) as [c2 log2].
Qed.

(** With a valid cache a query answers as it does with a fresh one. *)
Lemma flag_answer_valid flags key d c state :
  flag_cache_valid c ->
  (flag flags key d c state).1.1 = (flag flags key d flag_new state).1.1.
Proof.
  intros Hc. unfold flag, flag_on.
  destruct (read_flag flags key d) as [| |b|x|s|xs|props|f]; try done.
  destruct (has_mini_char s); [| done].
  cbn [cachedValue flag_new]. rewrite (bool_decide_eq_false_2 (None = Some s)) by done.
  case_bool_decide as Hs.
  - destruct (Hc s Hs) as (pat & -> & ->). done.
  - by destruct (mini s).
Qed.

(** X1.  The cache of [flag] cannot be observed in the events: after any
    session that started with a fresh cache, a query answers exactly as a
    pattern made anew by [flag] would, for every store and window.  In
    particular the branch that queries the cached pattern never finds it
    [null]. *)
Theorem flag_cache_transparent (key : string) (defaultValue : JsValue)
    (queries : list (gmap string JsValue * State))
    (flags : gmap string JsValue) (state : State) :
  let c := (flag_session key defaultValue queries flag_new).1 in
  (flag flags key defaultValue c state).1.1
  = (flag flags key defaultValue flag_new state).1.1.
Proof.
  intros c. apply flag_answer_valid, flag_session_valid, flag_new_valid.
Qed.

(** A query that reads the cached string or a value without mini-notation
    leaves the cache alone and does not call the parser. *)
Lemma flag_quiet flags key d c state s :
  cachedValue c = Some s ->
  read_flag flags key d = JStr s \/ hasMiniNotation (read_flag flags key d) = false ->
  exists r, flag flags key d c state = (r, c, []).
Proof.
  intros Hc [Hread|Hplain]; unfold flag.
  - rewrite Hread. unfold flag_on. destruct (has_mini_char s); [| by eexists].
    rewrite bool_decide_eq_true_2 by done. by eexists.
  - rewrite flag_on_plain by done. by eexists.
Qed.

Lemma flag_session_quiet key d s queries : forall c,
  cachedValue c = Some s ->
  Forall (fun q : gmap string JsValue * State =>
            read_flag q.1 key d = JStr s
            \/ hasMiniNotation (read_flag q.1 key d) = false) queries ->
  flag_session key d queries c = (c, []).
Proof.
  induction queries as [|[flags state] queries IH]; intros c Hc Hq; [done |].
  apply Forall_cons in Hq as [Hq1 Hq]. cbn [flag_session].
  destruct (flag_quiet flags key d c state s Hc Hq1) as [r ->].
  by rewrite (IH c Hc Hq).
Qed.

(** X2.  A string with mini-notation that the parser accepts is parsed
    once: the query that first reads it calls the parser, and as long as
    the store holds that string or values without mini-notation, no later
    query calls it again; the cache then holds the string and the parsed
    pattern. *)
Theorem flag_parses_accepted_once (key : string) (defaultValue : JsValue)
    (first : gmap string JsValue * State)
    (later : list (gmap string JsValue * State)) (s : string) (pat : Pattern) :
  read_flag first.1 key defaultValue = JStr s ->
  has_mini_char s = true ->
  mini s = Some pat ->
  Forall (fun q : gmap string JsValue * State =>
            read_flag q.1 key defaultValue = JStr s
            \/ hasMiniNotation (read_flag q.1 key defaultValue) = false) later ->
  flag_session key defaultValue (first :: later) flag_new
  = ({| cachedValue := Some s; cachedPattern := Some pat |}, [CallMini s]).
Proof.
  intros Hread Hs Hm Hlater. destruct first as [flags state].
  cbn [flag_session]. unfold flag at 1. simpl in Hread. rewrite Hread.
  rewrite (flag_on_parsed _ _ _ _ pat) by done.
  by rewrite (flag_session_quiet key defaultValue s later
                {| cachedValue := Some s; cachedPattern := Some pat |}
                eq_refl Hlater).
Qed.

(** X3.  A string with mini-notation that the parser rejects is not
    remembered: every query that reads it calls the parser again and logs
    the error again, and the cache stays as it was. *)
Theorem flag_reparses_rejected (key : string) (defaultValue : JsValue)
    (queries : list (gmap string JsValue * State)) (s : string) (c : FlagCache) :
  flag_cache_valid c ->
  has_mini_char s = true ->
  mini s = None ->
  Forall (fun q : gmap string JsValue * State =>
            read_flag q.1 key defaultValue = JStr s) queries ->
  flag_session key defaultValue queries c
  = (c, concat (replicate (length queries)
                  [CallMini s; ConsoleError (flag_parse_error key)])).
Proof.
  intros Hc Hs Hm Hq.
  assert (cachedValue c <> Some s) as Hne.
  { intros Hcs. destruct (Hc s Hcs) as (pat & Hpat & _). congruence. }
  induction queries as [|[flags state] queries IH]; [done |].
  apply Forall_cons in Hq as [Hq1 Hq]. simpl in Hq1.
  cbn [flag_session]. unfold flag at 1. rewrite Hq1.
  rewrite flag_on_failed by done. by rewrite (IH Hq).
Qed.

End ScalarSessions.

(* ===================================================================== *)
(** ** More on the parameter-bundle merges                                *)
(* ===================================================================== *)

Section MergeFields.
Context {H : Host} {E : Engine}.

Lemma lookup_merge (effects payload : gmap string JsValue) name :
  (effects ∪ payload) !! name
  = match effects !! name with
    | Some x => Some x
    | None => payload !! name
    end.
Proof.
  rewrite lookup_union. by destruct (effects !! name), (payload !! name).
Qed.

(** X4.  For an event whose payload is not [null] or [undefined], a
    bundle that decodes to something other than [null] and gains that
    multiply, [drumKit] keeps the extent of the event and builds its
    payload as follows: [bank] is the bundle's, and [RolandTR808] when the
    bundle has none, whatever bank the event carried; every other field
    except [gain] is the bundle's when the bundle has it and the event's own
    otherwise. *)
Theorem drumKit_sets_bank_merges_rest (flags : gmap string JsValue)
    (flagKey : string) (defaultValue : JsValue) (hap : Hap) (product : JsValue) :
  let bundle :=
    parse_if_string (read_flag flags flagKey (param_default defaultValue drumKit_default)) in
  nullish (value hap) = false ->
  nullish bundle = false ->
  js_mul (stated_event_gain (value hap)) (stated_bundle_gain bundle) = Ok product ->
  exists payload,
    drumKit_hap flags flagKey defaultValue hap = Ok (with_value hap (JObj payload))
    /\ payload !! "bank" = Some (field_default bundle "bank" (JStr "RolandTR808"))
    /\ (own_props bundle !! "bank" = None -> payload !! "bank" = Some (JStr "RolandTR808"))
    /\ (forall x, own_props bundle !! "bank" = Some x -> x <> JUndefined ->
          payload !! "bank" = Some x)
    /\ forall name, name <> "bank" -> name <> "gain" ->
         payload !! name
         = match own_props bundle !! name with
           | Some x => Some x
           | None => own_props (value hap) !! name
           end.
Proof.
  intros bundle Hv Hb Hg. eexists. split.
  { unfold drumKit_hap. by apply drumKit_hap_on_ok. }
  fold bundle. repeat split.
  - apply drumKit_value_bank.
  - intros Habs. rewrite drumKit_value_bank. by rewrite field_default_absent.
  - intros x Hx Hd. rewrite drumKit_value_bank.
    by rewrite (field_default_present _ _ _ x).
  - intros name Hbank Hgain. unfold drumKit_value.
    rewrite !lookup_insert_ne by done. rewrite lookup_merge.
    rewrite lookup_rest_props_kept; [done |].
    rewrite !not_elem_of_cons. repeat split; try done. apply not_elem_of_nil.
Qed.

Lemma sound_value_other sound product names bundle v name :
  name ∉ names -> name <> "gain" -> name <> "s" ->
  sound_value sound product (rest_props bundle names) v !! name
  = match own_props bundle !! name with
    | Some x => Some x
    | None => own_props v !! name
    end.
Proof.
  intros Hin Hg Hs. unfold sound_value.
  rewrite !lookup_insert_ne by done. rewrite lookup_merge.
  by rewrite lookup_rest_props_kept.
Qed.

(** X5.  For an event whose payload is not [null] or [undefined], a
    bundle that decodes to something other than [null] and gains that
    multiply, [bassSound] and [leadSound] keep the extent of the event;
    they write the bundle's [lpf] (and [leadSound] the bundle's [lpq]) over
    the event's whenever the bundle has one; the bundle's [sound] goes to
    [s], over the [s] the event carried, and to [s] only: the field [sound]
    of the payload stays the event's own; and every field other than
    [sound], [lpf], [lpq], [gain] and [s] is the bundle's when the bundle
    has it and the event's own otherwise. *)
Theorem sound_bundle_fields (flags : gmap string JsValue) (flagKey : string)
    (defaultValue : JsValue) (hap : Hap) :
  let bass :=
    parse_if_string (read_flag flags flagKey (param_default defaultValue bassSound_default)) in
  let lead :=
    parse_if_string (read_flag flags flagKey (param_default defaultValue leadSound_default)) in
  let has bundle name x := own_props bundle !! name = Some x /\ x <> JUndefined in
  nullish (value hap) = false ->
  (nullish bass = false ->
   forall product,
     js_mul (stated_event_gain (value hap)) (stated_bundle_gain bass) = Ok product ->
     exists payload,
       bassSound_hap flags flagKey defaultValue hap = Ok (with_value hap (JObj payload))
       /\ (forall x, has bass "sound" x -> payload !! "s" = Some x)
       /\ (forall x, has bass "lpf" x -> payload !! "lpf" = Some x)
       /\ payload !! "sound" = own_props (value hap) !! "sound"
       /\ forall name, name ∉ ["sound"; "lpf"; "gain"; "s"] ->
            payload !! name
            = match own_props bass !! name with
              | Some x => Some x
              | None => own_props (value hap) !! name
              end)
  /\ (nullish lead = false ->
      forall product,
        js_mul (stated_event_gain (value hap)) (stated_bundle_gain lead) = Ok product ->
        exists payload,
          leadSound_hap flags flagKey defaultValue hap = Ok (with_value hap (JObj payload))
          /\ (forall x, has lead "sound" x -> payload !! "s" = Some x)
          /\ (forall x, has lead "lpf" x -> payload !! "lpf" = Some x)
          /\ (forall x, has lead "lpq" x -> payload !! "lpq" = Some x)
          /\ payload !! "sound" = own_props (value hap) !! "sound"
          /\ forall name, name ∉ ["sound"; "lpf"; "lpq"; "gain"; "s"] ->
               payload !! name
               = match own_props lead !! name with
                 | Some x => Some x
                 | None => own_props (value hap) !! name
                 end).
Proof.
  intros bass lead has Hv. unfold has. split.
  - intros Hb product Hg. eexists.
    split; [unfold bassSound_hap; by apply bassSound_hap_on_ok |].
    fold bass. repeat split.
    + intros x [Hx Hd]. rewrite lookup_set_defined_ne by done.
      rewrite sound_value_s. by rewrite (field_default_present _ _ _ x).
    + intros x [Hx Hd]. unfold member. rewrite Hx. simpl.
      by apply lookup_set_defined_eq.
    + rewrite lookup_set_defined_ne by done.
      apply sound_value_from_payload; [| done | done].
      apply lookup_rest_props_removed. by repeat constructor.
    + intros name Hname. rewrite !not_elem_of_cons in Hname.
      destruct Hname as (Hsound & Hlpf & Hgain & Hs & _).
      rewrite lookup_set_defined_ne by done.
      apply sound_value_other; [| done | done].
      rewrite !not_elem_of_cons. repeat split; try done. apply not_elem_of_nil.
  - intros Hb product Hg. eexists.
    split; [unfold leadSound_hap; by apply leadSound_hap_on_ok |].
    fold lead. repeat split.
    + intros x [Hx Hd]. rewrite !lookup_set_defined_ne by done.
      rewrite sound_value_s. by rewrite (field_default_present _ _ _ x).
    + intros x [Hx Hd]. rewrite lookup_set_defined_ne by done.
      unfold member at 1. rewrite Hx. simpl. by apply lookup_set_defined_eq.
    + intros x [Hx Hd]. unfold member at 1. rewrite Hx. simpl.
      by apply lookup_set_defined_eq.
    + rewrite !lookup_set_defined_ne by done.
      apply sound_value_from_payload; [| done | done].
      apply lookup_rest_props_removed. by repeat constructor.
    + intros name Hname. rewrite !not_elem_of_cons in Hname.
      destruct Hname as (Hsound & Hlpf & Hlpq & Hgain & Hs & _).
      rewrite !lookup_set_defined_ne by done.
      apply sound_value_other; [| done | done].
      rewrite !not_elem_of_cons. repeat split; try done. apply not_elem_of_nil.
Qed.

(** The three merges throw together: each of them throws what the other
    two throw. *)
Lemma merges_throw_alike flagValue hap :
  let parsedValue := parse_if_string flagValue in
  let gains :=
    js_mul (stated_event_gain (value hap)) (stated_bundle_gain parsedValue) in
  forall result,
    result = drumKit_hap_on flagValue hap
    \/ result = bassSound_hap_on flagValue hap
    \/ result = leadSound_hap_on flagValue hap ->
    (exists e, result = Throw e)
    <-> nullish parsedValue = true
        \/ nullish (value hap) = true
        \/ exists e, gains = Throw e.
Proof.
  intros parsedValue gains result Hr.
  destruct (nullish parsedValue) eqn:Hp.
  { split; [by left |]. intros _.
    destruct Hr as [-> | [-> | ->]];
      unfold drumKit_hap_on, bassSound_hap_on, leadSound_hap_on;
      fold parsedValue; rewrite Hp; by eexists. }
  destruct (nullish (value hap)) eqn:Hv.
  { split; [by right; left |]. intros _.
    destruct Hr as [-> | [-> | ->]];
      unfold drumKit_hap_on, bassSound_hap_on, leadSound_hap_on, hap_withValue;
      fold parsedValue; rewrite Hp, Hv; by eexists. }
  destruct gains as [product|e] eqn:Hg.
  - split.
    + intros [e He]. exfalso.
      destruct Hr as [-> | [-> | ->]];
        [ rewrite (drumKit_hap_on_ok _ _ product) in He by done
        | rewrite (bassSound_hap_on_ok _ _ product) in He by done
        | rewrite (leadSound_hap_on_ok _ _ product) in He by done ];
        discriminate.
    + intros [? | [? | [e' ?]]]; discriminate.
  - split; [intros _; right; right; by exists e |]. intros _. exists e.
    destruct Hr as [-> | [-> | ->]];
      [ by apply drumKit_hap_on_gain_throws
      | by apply bassSound_hap_on_gain_throws
      | by apply leadSound_hap_on_gain_throws ].
Qed.

(** X6.  Each merge throws for an event exactly when the decoded bundle is
    [null] or [undefined], or the payload of the event is, or one of the two
    gains it multiplies has no conversion to a number; the last case needs
    a gain that is an array or an object.  In every other case the merge
    returns an event. *)
Theorem merges_throw_iff (flagValue : JsValue) (hap : Hap) :
  let parsedValue := parse_if_string flagValue in
  let existing := stated_event_gain (value hap) in
  let given := stated_bundle_gain parsedValue in
  let bad :=
    nullish parsedValue = true \/ nullish (value hap) = true
    \/ (exists e, to_number existing = Throw e)
    \/ (exists e, to_number given = Throw e) in
  ((exists e, drumKit_hap_on flagValue hap = Throw e) <-> bad)
  /\ ((exists e, bassSound_hap_on flagValue hap = Throw e) <-> bad)
  /\ ((exists e, leadSound_hap_on flagValue hap = Throw e) <-> bad)
  /\ (bad -> nullish parsedValue = false -> nullish (value hap) = false ->
      is_primitive existing = false \/ is_primitive given = false).
Proof.
  intros parsedValue existing given bad.
  assert (forall result,
            result = drumKit_hap_on flagValue hap
            \/ result = bassSound_hap_on flagValue hap
            \/ result = leadSound_hap_on flagValue hap ->
            (exists e, result = Throw e) <-> bad) as Hall.
  { intros result Hr. rewrite (merges_throw_alike flagValue hap result Hr).
    fold parsedValue existing given. rewrite js_mul_throws_iff. reflexivity. }
  split; [apply Hall; by left |].
  split; [apply Hall; right; by left |].
  split; [apply Hall; right; by right |].
  intros [Hp | [Hv | Hconv]] Hp' Hv'; [congruence | congruence |].
  destruct (is_primitive existing) eqn:He; [| by left].
  destruct (is_primitive given) eqn:Hg; [| by right].
  exfalso.
  destruct (to_number_primitive _ He) as [x Hx].
  destruct (to_number_primitive _ Hg) as [y Hy].
  destruct Hconv as [[e Hthrow] | [e Hthrow]]; congruence.
Qed.

Lemma res_map_throws {A B} (f : A -> Res B) l a :
  a ∈ l -> (exists e, f a = Throw e) -> exists e, res_map f l = Throw e.
Proof.
  intros Hin [e He]. induction l as [|b l IH]; [by apply elem_of_nil in Hin |].
  simpl. destruct (f b) as [b'|e'] eqn:Hb; [| by eexists].
  apply elem_of_cons in Hin as [->|Hin]; [congruence |].
  destruct (IH Hin) as [e'' ->]. by eexists.
Qed.

(** X8.  One event whose payload is [null] or [undefined] is enough to
    make the whole query of a merge throw: no event of that window is
    returned, whatever the bundle. *)
Theorem merges_abort_on_bad_payload (flags : gmap string JsValue) (self : Pattern)
    (flagKey : string) (defaultValue : JsValue) (state : State)
    (haps : list Hap) (hap : Hap) :
  self state = Ok haps ->
  hap ∈ haps ->
  nullish (value hap) = true ->
  (exists e, drumKit flags self flagKey defaultValue state = Throw e)
  /\ (exists e, bassSound flags self flagKey defaultValue state = Throw e)
  /\ (exists e, leadSound flags self flagKey defaultValue state = Throw e).
Proof.
  intros Hself Hin Hv.
  unfold drumKit, bassSound, leadSound, withHap. rewrite Hself. cbn [res_bind].
  repeat split; apply (res_map_throws _ _ hap Hin).
  - unfold drumKit_hap, drumKit_hap_on, hap_withValue.
    destruct (nullish (parse_if_string _)); [by eexists |]. rewrite Hv. by eexists.
  - unfold bassSound_hap, bassSound_hap_on, hap_withValue.
    destruct (nullish (parse_if_string _)); [by eexists |]. rewrite Hv. by eexists.
  - unfold leadSound_hap, leadSound_hap_on, hap_withValue.
    destruct (nullish (parse_if_string _)); [by eexists |]. rewrite Hv. by eexists.
Qed.

End MergeFields.

(* ===================================================================== *)
(** ** Selections outside the registry                                    *)
(* ===================================================================== *)

Section SelectorFallback.
Context {H : Host} {E : Engine}.

Lemma lookup_variation_fallback (variations : gmap string Variation) name dn f :
  variations !! name = None -> inherited name = None ->
  variations !! dn = Some (VFunction f) ->
  lookup_variation variations (JStr name) (JStr dn) = Ok (Some (dn, VFunction f)).
Proof.
  intros Hn Hinh Hd. unfold lookup_variation. simpl.
  rewrite (variations_get_none _ _ Hn Hinh). simpl.
  unfold variations_get. by rewrite Hd.
Qed.

Lemma lookup_variation_none (variations : gmap string Variation) name d dname :
  variations !! name = None -> inherited name = None ->
  property_key d = Ok dname ->
  variations !! dname = None -> inherited dname = None ->
  lookup_variation variations (JStr name) d = Ok None.
Proof.
  intros Hn Hinh Hk Hd Hdinh. unfold lookup_variation. simpl.
  rewrite (variations_get_none _ _ Hn Hinh). simpl. rewrite Hk. simpl.
  by rewrite (variations_get_none _ _ Hd Hdinh).
Qed.

Lemma lookup_variation_inherited (variations : gmap string Variation) name d :
  variations !! name = None -> name ∈ object_prototype_functions ->
  lookup_variation variations (JStr name) d
  = Ok (Some (name,
              VFunction (fun _ => res_bind (CallBuiltin name)
                                    (fun v => Ok (LOther v))))).
Proof.
  intros Hn Hin. unfold lookup_variation. simpl.
  by rewrite (variations_get_inherited _ _ Hn Hin).
Qed.

(** X9.  A selection that the registry neither has nor inherits is served
    by the factory of the default variation, but cached under the selected
    name: a second query with the same unknown name builds nothing, and a
    change from one unknown name to another one calls the factory of the
    default again, although the arrangement is the same. *)
Theorem lead_fallback_rebuilt_per_name (flagKey dn u1 u2 : string)
    (variations : gmap string Variation) (patternFactory : unit -> Res LeadValue)
    (x : LeadValue) (q1 q1' q2 : gmap string JsValue * State) :
  variations !! dn = Some (VFunction patternFactory) ->
  patternFactory tt = Ok x ->
  variations !! u1 = None -> inherited u1 = None ->
  variations !! u2 = None -> inherited u2 = None ->
  u1 <> u2 ->
  read_flag q1.1 flagKey (JStr dn) = JStr u1 ->
  read_flag q1'.1 flagKey (JStr dn) = JStr u1 ->
  read_flag q2.1 flagKey (JStr dn) = JStr u2 ->
  lead_session flagKey (JStr dn) variations [q1; q1'; q2] lead_new
  = ({| cachedVariationKey := JStr u2; cachedLeadPattern := x |},
     [CallFactory dn; CallFactory dn]).
Proof.
  intros Hd Hx Hu1 Hi1 Hu2 Hi2 Hne Hq1 Hq1' Hq2.
  destruct q1 as [f1 s1], q1' as [f1' s1'], q2 as [f2 s2]. simpl in Hq1, Hq1', Hq2.
  cbn [lead_session]. unfold getLeadArrangement. rewrite Hq1, Hq1', Hq2.
  rewrite (lead_miss _ _ _ _ _ dn patternFactory x)
    by (by apply lookup_variation_fallback || done).
  rewrite (lead_hit _ _ _ _ _ dn (VFunction patternFactory))
    by (by apply lookup_variation_fallback || apply strict_eq_name_same).
  rewrite (lead_miss _ _ _ _ _ dn patternFactory x);
    [done | by apply lookup_variation_fallback | | done].
  apply strict_eq_name_other. cbn. congruence.
Qed.

(** X10.  A selection that the registry neither has nor inherits, while
    the same holds of the default, makes the query warn and answer with no
    events, and leaves the cache as it is: when the store returns to the
    selection that was cached, nothing is built again. *)
Theorem lead_unknown_keeps_cache (flagKey a b dname : string)
    (defaultVariation : JsValue) (variations : gmap string Variation)
    (patternFactory : unit -> Res LeadValue) (x : LeadValue)
    (q1 q2 q3 : gmap string JsValue * State) :
  variations !! a = Some (VFunction patternFactory) ->
  patternFactory tt = Ok x ->
  variations !! b = None -> inherited b = None ->
  property_key defaultVariation = Ok dname ->
  variations !! dname = None -> inherited dname = None ->
  read_flag q1.1 flagKey defaultVariation = JStr a ->
  read_flag q2.1 flagKey defaultVariation = JStr b ->
  read_flag q3.1 flagKey defaultVariation = JStr a ->
  (forall c,
     getLeadArrangement q2.1 flagKey defaultVariation variations c q2.2
     = (Ok [], c, [ConsoleWarn (no_variation_message b dname)]))
  /\ lead_session flagKey defaultVariation variations [q1; q2; q3] lead_new
     = ({| cachedVariationKey := JStr a; cachedLeadPattern := x |},
        [CallFactory a; ConsoleWarn (no_variation_message b dname)]).
Proof.
  intros Ha Hx Hb Hbi Hk Hd Hdi Hq1 Hq2 Hq3.
  destruct q1 as [f1 s1], q2 as [f2 s2], q3 as [f3 s3]. simpl in Hq1, Hq2, Hq3.
  assert (no_variation_warning (JStr b) defaultVariation
          = Ok (no_variation_message b dname)) as Hmsg.
  { unfold no_variation_warning. simpl. by rewrite Hk. }
  split.
  - intros c. cbn [fst snd]. unfold getLeadArrangement. rewrite Hq2.
    apply lead_unknown; [by apply (lookup_variation_none _ _ _ dname) | done].
  - cbn [lead_session]. unfold getLeadArrangement. rewrite Hq1, Hq2, Hq3.
    rewrite (lead_miss _ _ _ _ _ a patternFactory x)
      by (by apply lookup_variation_own || done).
    rewrite (lead_unknown _ _ _ _ _ (no_variation_message b dname))
      by (by apply (lookup_variation_none _ _ _ dname) || done).
    rewrite (lead_hit _ _ _ _ _ a (VFunction patternFactory));
      [done | by apply lookup_variation_own | apply strict_eq_name_same].
Qed.

(** X22.  A selection that names a method of [Object.prototype] and is not
    an entry of the registry is not unknown to the code: the registry is a
    plain object and answers with the inherited method.  The query does not
    fall back to the default and does not warn; it stores the selection,
    calls the method as if it were a factory, and throws, whatever the
    method does and whatever the default is. *)
Theorem lead_inherited_name_throws (flagKey name : string)
    (defaultVariation : JsValue) (variations : gmap string Variation)
    (flags : gmap string JsValue) (c : LeadCache) (state : State) :
  name ∈ object_prototype_functions ->
  variations !! name = None ->
  read_flag flags flagKey defaultVariation = JStr name ->
  cachedVariationKey c <> JStr name ->
  let r := getLeadArrangement flags flagKey defaultVariation variations c state in
  (exists e, r.1.1 = Throw e)
  /\ cachedVariationKey r.1.2 = JStr name
  /\ r.2 = [CallFactory name].
Proof.
  intros Hin Hn Hread Hc r. unfold r, getLeadArrangement, getLeadArrangement_on.
  rewrite Hread, (lookup_variation_inherited _ _ _ Hn Hin).
  rewrite strict_eq_name_other by done.
  destruct (CallBuiltin name) as [v|e]; simpl; repeat split; by eexists.
Qed.

(** X23.  A factory that throws leaves the selector with the new selection
    and the pattern cached before: the query that called it throws, and the
    next query with the same selection calls nothing and answers with the
    pattern of the selection before. *)
Theorem lead_failed_build_serves_stale (flagKey name found : string)
    (defaultVariation : JsValue) (variations : gmap string Variation)
    (patternFactory : unit -> Res LeadValue) (e : JsError) (c : LeadCache)
    (q1 q2 : gmap string JsValue * State) :
  read_flag q1.1 flagKey defaultVariation = JStr name ->
  read_flag q2.1 flagKey defaultVariation = JStr name ->
  lookup_variation variations (JStr name) defaultVariation
  = Ok (Some (found, VFunction patternFactory)) ->
  patternFactory tt = Throw e ->
  cachedVariationKey c <> JStr name ->
  let r1 := getLeadArrangement q1.1 flagKey defaultVariation variations c q1.2 in
  let r2 := getLeadArrangement q2.1 flagKey defaultVariation variations r1.1.2 q2.2 in
  r1.1.1 = Throw e
  /\ r1.2 = [CallFactory found]
  /\ r2 = (query_lead (cachedLeadPattern c) q2.2, r1.1.2, []).
Proof.
  intros Hq1 Hq2 Hl Hf Hc r1 r2. unfold r2, r1, getLeadArrangement.
  rewrite Hq1, Hq2.
  rewrite (lead_miss_throws _ _ _ _ _ found patternFactory e)
    by (done || by apply strict_eq_name_other).
  cbn [fst snd]. repeat split.
  rewrite (lead_hit _ _ _ _ _ found (VFunction patternFactory))
    by (done || apply strict_eq_name_same).
  reflexivity.
Qed.

End SelectorFallback.

(* ===================================================================== *)
(** ** More on the module state                                           *)
(* ===================================================================== *)

Section ModuleRuns.
Context {H : Host} {E : Engine}.

(** X11.  [initLaunchDarkly] creates the client once: after a first call,
    any number of further calls, with whatever client ids, return at once
    and leave the client, its callbacks, the store and the promise as they
    are. *)
Theorem initLaunchDarkly_once (clientId : string) (clientIds : list string)
    (w : World) :
  let w1 := (initLaunchDarkly clientId w).1 in
  (forall clientId', initLaunchDarkly clientId' w1 = (w1, AlreadyInitialized))
  /\ run (map CallInit clientIds) w1 = w1.
Proof.
  intros w1.
  assert (forall clientId', initLaunchDarkly clientId' w1 = (w1, AlreadyInitialized))
    as Hagain.
  { intros clientId'. unfold w1, initLaunchDarkly.
    destruct (ldClient w) eqn:Hc; cbn [fst]; [by rewrite Hc | done]. }
  split; [done |].
  unfold run. induction clientIds as [|c clientIds IH]; [done |].
  cbn [map foldl step]. by rewrite Hagain.
Qed.

(** X12.  Every state that calls of [initLaunchDarkly] and [setcpmFlag]
    and provider events lead to from the loaded module satisfies
    [world_wf]: the promise exists exactly when the client does, the client
    carries the three callbacks of [initLaunchDarkly] once, in their order
    and before every tempo listener, the tempo listeners on it have
    distinct keys, and each of them is the entry of its key in
    [tempoListeners]. *)
Theorem reachable_world_wf (setcpm setCpm : bool) (actions : list Action) :
  world_wf (run actions (initial_world setcpm setCpm)).
Proof. apply run_wf, initial_world_wf. Qed.

Lemma reachable_shape setcpm setCpm actions :
  let w := run actions (initial_world setcpm setCpm) in
  ldClient w <> None ->
  ldClient w = Some (init_handlers ++ map OnChangeTempo (tempo_handlers w)).
Proof.
  intros w Hc. apply tempo_handlers_wf; [| done].
  apply run_wf, initial_world_wf.
Qed.

(** X13.  When the provider is ready, the snapshot it hands over is merged
    into the store: a key of the snapshot reads its snapshot value, every
    other key keeps its value.  A pending promise is resolved.  No tempo
    listener runs, so a tempo that [setcpmFlag] applied from a default
    before the snapshot arrived is not applied again from the snapshot. *)
Theorem ready_merges_snapshot (setcpm setCpm : bool) (actions : list Action)
    (allFlags : gmap string JsValue) :
  let w := run actions (initial_world setcpm setCpm) in
  let w' := deliver (Ready allFlags) w in
  ldClient w <> None ->
  (forall k, flags w' !! k
             = match allFlags !! k with
               | Some v => Some v
               | None => flags w !! k
               end)
  /\ effects w' = effects w
  /\ (initPromise w = Some Pending -> initPromise w' = Some Resolved)
  /\ ldClient w' = ldClient w
  /\ tempoListeners w' = tempoListeners w.
Proof.
  intros w w' Hc. unfold w'.
  assert (ldClient w = Some (init_handlers ++ map OnChangeTempo (tempo_handlers w)))
    as Hshape by exact (reachable_shape setcpm setCpm actions Hc).
  clearbody w.
  rewrite (deliver_shape _ _ _ Hshape).
  destruct (settle_fields Resolved (set_flags (allFlags ∪ flags w) w))
    as (-> & -> & -> & -> & _ & _ & _ & Hres).
  cbn [flags set_flags]. repeat split; try done.
  intros k. apply lookup_merge.
Qed.

(** X14.  A change notification is what the next query reads: for a key
    it carries, every bridge reads the notification's current value, and
    the caller's default when that value is [null] or [undefined]; a key it
    does not carry keeps its value. *)
Theorem change_is_read_next (setcpm setCpm : bool) (actions : list Action)
    (settings : gmap string FlagChange) :
  let w := run actions (initial_world setcpm setCpm) in
  let w' := deliver (Change settings) w in
  ldClient w <> None ->
  (forall k ch d, settings !! k = Some ch ->
     read_flag (flags w') k d = coalesce (current ch) d)
  /\ (forall k, settings !! k = None -> flags w' !! k = flags w !! k).
Proof.
  intros w w' Hc. unfold w'.
  assert (ldClient w = Some (init_handlers ++ map OnChangeTempo (tempo_handlers w)))
    as Hshape by exact (reachable_shape setcpm setCpm actions Hc).
  clearbody w.
  rewrite (deliver_shape _ _ _ Hshape).
  cbn [flags add_effects set_flags]. split.
  - intros k ch d Hk. unfold read_flag, flags_get, plain_get.
    by rewrite lookup_merge, lookup_fmap, Hk.
  - intros k Hk. by rewrite lookup_merge, lookup_fmap, Hk.
Qed.

Lemma settle_flags s w : flags (settle s w) = flags w.
Proof. by destruct (settle_fields s w) as (_ & -> & _). Qed.

Lemma register_tempo_flags l w : flags (register_tempo l w) = flags w.
Proof.
  unfold register_tempo. destruct (tempoListeners w !! tl_flagKey l); [done |].
  cbn [ldClient set_tempoListeners]. by destruct (ldClient w).
Qed.

Lemma setcpmFlag_flags flagKey d divisor w :
  flags (step w (CallSetcpmFlag flagKey d divisor)) = flags w.
Proof.
  cbn [step].
  destruct (setcpmFlag flagKey d divisor w) as [[w' pat]|e] eqn:Hs; [| done].
  apply setcpmFlag_inv in Hs as (cpm & _ & -> & _).
  by rewrite register_tempo_flags.
Qed.

Lemma initLaunchDarkly_flags clientId w :
  flags (initLaunchDarkly clientId w).1 = flags w.
Proof. unfold initLaunchDarkly. by destruct (ldClient w). Qed.

Lemma step_dom w a : dom (flags w) ⊆ dom (flags (step w a)).
Proof.
  destruct a as [clientId|flagKey d divisor|ev].
  - cbn [step]. by rewrite initLaunchDarkly_flags.
  - by rewrite setcpmFlag_flags.
  - cbn [step]. unfold deliver. destruct (ldClient w) as [handlers|]; [| done].
    apply emit_fields.
Qed.

(** X15.  The store never loses a key: whatever calls and provider events
    follow, in whatever state, a key that has an entry keeps having one. *)
Theorem store_keys_never_removed (actions : list Action) (w : World) :
  dom (flags w) ⊆ dom (flags (run actions w)).
Proof.
  unfold run. revert w. induction actions as [|a actions IH]; intros w; [done |].
  cbn [foldl]. etrans; [apply (step_dom w a) | apply IH].
Qed.

(** X16.  Only the 'ready' and 'change' events of the provider write the
    store: calls of [initLaunchDarkly] and of [setcpmFlag] and failures of
    the provider, in any number and order and in whatever state, leave every
    entry as it is. *)
Theorem store_written_by_events_only (actions : list Action) (w : World) :
  Forall (fun a => writes_store a = false) actions ->
  flags (run actions w) = flags w.
Proof.
  unfold run. revert w. induction actions as [|a actions IH]; intros w Ha; [done |].
  apply Forall_cons in Ha as [Ha Hrest]. cbn [foldl]. rewrite (IH _ Hrest).
  destruct a as [clientId|flagKey d divisor|[allFlags|settings|err]];
    try discriminate.
  - apply initLaunchDarkly_flags.
  - apply setcpmFlag_flags.
  - apply deliver_failed_flags.
Qed.

Lemma filter_key_unique l ls :
  NoDup (map tl_flagKey ls) -> l ∈ ls ->
  filter (fun l' => tl_flagKey l' = tl_flagKey l) ls = [l].
Proof.
  intros Hnd Hl.
  pose proof (count_key_NoDup (tl_flagKey l) ls Hnd) as Hle.
  assert (l ∈ filter (fun l' => tl_flagKey l' = tl_flagKey l) ls) as Hin
    by (by apply list_elem_of_filter).
  destruct (filter (fun l' => tl_flagKey l' = tl_flagKey l) ls) as [|x [|y rest]].
  - by apply elem_of_nil in Hin.
  - by apply list_elem_of_singleton in Hin as ->.
  - simpl in Hle. lia.
Qed.

(** X17.  The listener of a key is the one of the call that registered it:
    when [setcpmFlag] finds the client created and no entry for its key and
    returns, then after any further calls, also of [setcpmFlag] for the same
    key with another default or divisor, and any provider events, the only
    listener of the key on the client, and the entry of the key in
    [tempoListeners], is still the one with the default and the divisor of
    that first call. *)
Theorem tempo_listener_first_call_wins (setcpm setCpm : bool)
    (before after : list Action) (flagKey : string)
    (defaultValue divisor : JsValue) (w0' : World) (pat : Pattern) :
  let w0 := run before (initial_world setcpm setCpm) in
  let l := {| tl_flagKey := flagKey;
              tl_defaultValue := param_default defaultValue (JNum 100);
              tl_divisor := param_default divisor (JNum 1) |} in
  setcpmFlag flagKey defaultValue divisor w0 = Ok (w0', pat) ->
  let w1 := run after w0' in
  ldClient w0 <> None ->
  tempoListeners w0 !! flagKey = None ->
  filter (fun l' => tl_flagKey l' = flagKey) (tempo_handlers w1) = [l]
  /\ tempoListeners w1 !! flagKey = Some l.
Proof.
  intros w0 l Hret w1 Hc Hk.
  assert (world_wf w1) as Hw1.
  { apply run_wf, (setcpmFlag_wf _ _ _ _ _ _ Hret), run_wf, initial_world_wf. }
  assert (l ∈ tempo_handlers w1) as Hl
    by (by apply run_keeps_listener, (setcpmFlag_registers _ _ _ _ _ _ Hret)).
  destruct (tempo_handlers_wf w1 Hw1) as [Hnd Hshape].
  split.
  - by apply (filter_key_unique l).
  - clear Hnd Hshape. unfold world_wf in Hw1. unfold tempo_handlers in Hl.
    destruct (ldClient w1) as [handlers|]; [| by apply elem_of_nil in Hl].
    destruct Hw1 as [_ (ls & -> & _ & Hall)].
    rewrite omap_tempo_handlers in Hl. by apply (Hall l).
Qed.

Lemma tempo_reactions_nil settings w ls :
  (forall l, l ∈ ls -> change_names settings (tl_flagKey l) = false) ->
  tempo_reactions settings w ls = [].
Proof.
  induction ls as [|l ls IH]; intros Hkeys; [done |].
  cbn [tempo_reactions]. rewrite (Hkeys l) by apply list_elem_of_here.
  apply IH. intros l' Hl'. apply Hkeys. by apply list_elem_of_further.
Qed.

(** X18.  A change notification that carries none of the keys that have a
    tempo listener on the client runs no tempo step, as long as none of
    those keys names a member of [Object.prototype]: it prints nothing and
    calls nothing. *)
Theorem change_of_other_keys_runs_no_tempo (setcpm setCpm : bool)
    (actions : list Action) (settings : gmap string FlagChange) :
  let w := run actions (initial_world setcpm setCpm) in
  (forall l, l ∈ tempo_handlers w ->
     settings !! tl_flagKey l = None /\ inherited (tl_flagKey l) = None) ->
  effects (deliver (Change settings) w) = effects w.
Proof.
  intros w Hkeys.
  assert (ldClient w <> None ->
          ldClient w = Some (init_handlers ++ map OnChangeTempo (tempo_handlers w)))
    as Hshape by exact (reachable_shape setcpm setCpm actions).
  clearbody w. destruct (ldClient w) as [handlers|] eqn:Hc.
  - rewrite (deliver_shape _ _ (tempo_handlers w)) by (rewrite Hc; by apply Hshape).
    cbn [effects add_effects set_flags].
    rewrite tempo_reactions_nil; [by rewrite app_nil_r |].
    intros l Hl. destruct (Hkeys l Hl). by apply change_names_false.
  - unfold deliver. by rewrite Hc.
Qed.

Lemma settle_settled s s' w :
  initPromise w = Some s -> s <> Pending -> initPromise (settle s' w) = Some s.
Proof.
  intros Hp Hs. unfold settle. rewrite Hp. by destruct s.
Qed.

Lemma register_tempo_initPromise l w :
  initPromise (register_tempo l w) = initPromise w.
Proof.
  unfold register_tempo. destruct (tempoListeners w !! tl_flagKey l); [done |].
  cbn [ldClient set_tempoListeners]. by destruct (ldClient w).
Qed.

Lemma step_keeps_settled s w a :
  world_wf w -> initPromise w = Some s -> s <> Pending ->
  initPromise (step w a) = Some s.
Proof.
  intros Hw Hp Hs.
  assert (ldClient w <> None) as Hc.
  { intros Hc. unfold world_wf in Hw. rewrite Hc in Hw. congruence. }
  destruct a as [clientId|flagKey d divisor|ev]; cbn [step].
  - unfold initLaunchDarkly. by destruct (ldClient w).
  - destruct (setcpmFlag flagKey d divisor w) as [[w' pat]|e] eqn:Hret; [| done].
    apply setcpmFlag_inv in Hret as (cpm & _ & -> & _).
    by rewrite register_tempo_initPromise.
  - destruct (tempo_handlers_wf w Hw) as [_ Hshape].
    rewrite (deliver_shape _ _ _ (Hshape Hc)).
    destruct ev as [allFlags|settings|err]; [| done |]; by apply settle_settled.
Qed.

(** X19.  The promise of the initialization settles once: after it has
    been resolved or rejected, no later event (a late failure after
    'ready', a late 'ready' after a failure) and no later call changes its
    state. *)
Theorem init_promise_settles_once (setcpm setCpm : bool)
    (before after : list Action) (s : PromiseState) :
  let w := run before (initial_world setcpm setCpm) in
  initPromise w = Some s ->
  s <> Pending ->
  initPromise (run after w) = Some s.
Proof.
  intros w Hp Hs.
  assert (world_wf w) as Hw by apply run_wf, initial_world_wf.
  clearbody w. unfold run. revert w Hp Hw.
  induction after as [|a after IH]; intros w Hp Hw; [done |].
  cbn [foldl]. apply IH; [by apply step_keeps_settled | by apply step_wf].
Qed.

Lemma deliver_tempoListeners ev w :
  tempoListeners (deliver ev w) = tempoListeners w.
Proof.
  unfold deliver. destruct (ldClient w) as [handlers|]; [| done].
  apply emit_fields.
Qed.

(** The registration of a key without a client records the key and hooks
    nothing. *)
Lemma register_tempo_unhooked l w :
  ldClient w = None -> tempoListeners w !! tl_flagKey l = None ->
  is_Some (tempoListeners (register_tempo l w) !! tl_flagKey l)
  /\ listener_count (tl_flagKey l) (register_tempo l w) = 0.
Proof.
  intros Hc Hk. unfold register_tempo. rewrite Hk.
  cbn [ldClient set_tempoListeners]. rewrite Hc. split.
  - cbn [tempoListeners set_tempoListeners]. rewrite lookup_insert_eq. by eexists.
  - unfold listener_count, tempo_handlers. cbn [ldClient set_tempoListeners].
    by rewrite Hc.
Qed.

(** The registration of another key leaves a key without listener as it
    is. *)
Lemma register_tempo_keeps_unhooked flagKey l w :
  is_Some (tempoListeners w !! flagKey) -> listener_count flagKey w = 0 ->
  is_Some (tempoListeners (register_tempo l w) !! flagKey)
  /\ listener_count flagKey (register_tempo l w) = 0.
Proof.
  intros Hk Hcount. unfold register_tempo.
  destruct (tempoListeners w !! tl_flagKey l) eqn:Hk'; [done |].
  assert (tl_flagKey l <> flagKey) as Hne.
  { intros Heq. rewrite <- Heq, Hk' in Hk. by destruct Hk. }
  cbn [ldClient set_tempoListeners].
  unfold listener_count, tempo_handlers in *.
  destruct (ldClient w) as [handlers|] eqn:Hc;
    cbn [ldClient tempoListeners set_ldClient set_tempoListeners];
    rewrite lookup_insert_ne by done; (split; [done |]).
  - rewrite omap_app, filter_app, length_app, Hcount. simpl.
    rewrite filter_cons_False; [done |]. simpl. congruence.
  - by rewrite Hc.
Qed.

(** A key that has an entry in the registry and no listener on the client
    stays so. *)
Lemma step_keeps_unhooked flagKey w a :
  is_Some (tempoListeners w !! flagKey) -> listener_count flagKey w = 0 ->
  is_Some (tempoListeners (step w a) !! flagKey)
  /\ listener_count flagKey (step w a) = 0.
Proof.
  intros Hk Hcount. destruct a as [clientId|flagKey' d divisor|ev]; cbn [step].
  - unfold initLaunchDarkly. destruct (ldClient w); [done |]. by split.
  - destruct (setcpmFlag flagKey' d divisor w) as [[w' pat]|e] eqn:Hret; [| done].
    apply setcpmFlag_inv in Hret as (cpm & _ & -> & _).
    by apply register_tempo_keeps_unhooked.
  - unfold listener_count, tempo_handlers.
    by rewrite deliver_tempoListeners, deliver_ldClient.
Qed.

(** X20.  A key that [setcpmFlag] first meets while the client does not
    exist never gets a listener: the call, when it returns, has recorded the
    key in [tempoListeners] without hooking anything, and after that no call
    of [initLaunchDarkly], no further call of [setcpmFlag] for the key and
    no provider event puts a listener of the key on the client.  Each call
    still applies the tempo at once. *)
Theorem tempo_key_met_without_client_is_never_hooked (after : list Action)
    (flagKey : string) (defaultValue divisor : JsValue) (w w' : World)
    (pat : Pattern) :
  ldClient w = None ->
  tempoListeners w !! flagKey = None ->
  setcpmFlag flagKey defaultValue divisor w = Ok (w', pat) ->
  listener_count flagKey (run after w') = 0.
Proof.
  intros Hc Hk (cpm & _ & -> & _)%setcpmFlag_inv.
  set (l := {| tl_flagKey := flagKey;
               tl_defaultValue := param_default defaultValue (JNum 100);
               tl_divisor := param_default divisor (JNum 1) |}).
  pose proof (register_tempo_unhooked l
                (add_effect (tempo_effect (global_setcpm w) (global_setCpm w) cpm) w)
                Hc Hk) as Hstart.
  cbn [tl_flagKey l] in Hstart.
  revert Hstart. generalize (register_tempo l
    (add_effect (tempo_effect (global_setcpm w) (global_setCpm w) cpm) w)).
  unfold run. induction after as [|a after IH]; intros w1 [Hk1 Hcount]; [done |].
  cbn [foldl]. apply IH. by apply step_keeps_unhooked.
Qed.

(** A notification names a key when it carries the key or when the key
    names a member of [Object.prototype]. *)
Lemma change_names_spec (settings : gmap string FlagChange) flagKey :
  change_names settings flagKey = true
  <-> is_Some (settings !! flagKey) \/ is_Some (inherited flagKey).
Proof.
  unfold change_names. destruct (settings !! flagKey) as [ch|].
  - split; [intros _; left; by eexists | done].
  - destruct (inherited flagKey) as [v|] eqn:Hinh.
    + destruct (inherited_truthy _ _ Hinh) as [-> _].
      split; [intros _; right; by eexists | done].
    + split; [done | by intros [[? ?] | [? ?]]].
Qed.

(** When no listener throws, the reactions are the tempo steps of the
    listeners that the notification names, in their order. *)
Lemma tempo_reactions_filter settings w ls :
  (forall l, l ∈ ls -> change_names settings (tl_flagKey l) = true ->
     exists cpm, getValue (flags w) l = Ok cpm) ->
  exists cpms,
    Forall2 (fun l cpm => getValue (flags w) l = Ok cpm)
      (filter (fun l => is_Some (settings !! tl_flagKey l)
                        \/ is_Some (inherited (tl_flagKey l))) ls) cpms
    /\ tempo_reactions settings w ls
       = map (tempo_effect (global_setcpm w) (global_setCpm w)) cpms.
Proof.
  induction ls as [|l ls IH]; intros Hcalm.
  - exists []. split; [constructor | done].
  - destruct IH as (cpms & Hall & Hre).
    { intros l' Hl'. apply Hcalm. by apply list_elem_of_further. }
    cbn [tempo_reactions]. rewrite filter_cons.
    destruct (change_names settings (tl_flagKey l)) eqn:Hl.
    + destruct (Hcalm l (list_elem_of_here _ _) Hl) as [cpm Hcpm].
      rewrite decide_True by (by apply change_names_spec). rewrite Hcpm.
      exists (cpm :: cpms). split; [by constructor |]. cbn [map]. by rewrite Hre.
    + rewrite decide_False; [by exists cpms |].
      rewrite <- change_names_spec. congruence.
Qed.

(** X21.  What a change notification does besides writing the store, when
    no tempo listener throws: it runs the tempo step of each listener on
    the client whose key it names, once each, in the order of their
    registration and on the store as the notification has updated it, and
    nothing else is printed or called.  A key is named when the
    notification carries it or when it names a member of
    [Object.prototype]. *)
Theorem change_runs_listeners_in_order (setcpm setCpm : bool)
    (actions : list Action) (settings : gmap string FlagChange) :
  let w := run actions (initial_world setcpm setCpm) in
  let w' := deliver (Change settings) w in
  let named :=
    filter (fun l => is_Some (settings !! tl_flagKey l)
                     \/ is_Some (inherited (tl_flagKey l)))
      (tempo_handlers w) in
  (forall l, l ∈ named -> exists cpm, getValue (flags w') l = Ok cpm) ->
  exists cpms,
    Forall2 (fun l cpm => getValue (flags w') l = Ok cpm) named cpms
    /\ effects w'
       = effects w ++ map (tempo_effect (global_setcpm w) (global_setCpm w)) cpms.
Proof.
  intros w w' named Hcalm. unfold w', named in *.
  assert (ldClient w <> None ->
          ldClient w = Some (init_handlers ++ map OnChangeTempo (tempo_handlers w)))
    as Hshape by exact (reachable_shape setcpm setCpm actions).
  clearbody w. destruct (ldClient w) as [handlers|] eqn:Hc.
  - rewrite (deliver_shape _ _ (tempo_handlers w)) in *
      by (rewrite Hc; by apply Hshape).
    cbn [effects flags add_effects set_flags] in *.
    destruct (tempo_reactions_filter settings
                (set_flags ((current <$> settings) ∪ flags w) w)
                (tempo_handlers w)) as (cpms & Hall & Hre).
    { intros l Hl Hn. apply Hcalm. apply list_elem_of_filter.
      split; [by apply change_names_spec | done]. }
    exists cpms. split; [exact Hall |].
    exact (f_equal (app (effects w)) Hre).
  - exists []. unfold deliver, tempo_handlers. rewrite Hc.
    split; [constructor | by rewrite app_nil_r].
Qed.

(** X24.  A key that names a method of [Object.prototype] makes its tempo
    listener run on every change notification, whatever keys the
    notification carries: the test [settings[flagKey]] finds the inherited
    method.  The listener applies the tempo computed from the store as the
    notification has updated it. *)
Theorem inherited_key_listener_runs_on_every_change (setcpm setCpm : bool)
    (before after : list Action) (flagKey : string)
    (defaultValue divisor : JsValue) (settings : gmap string FlagChange)
    (w0' : World) (pat : Pattern) :
  let w0 := run before (initial_world setcpm setCpm) in
  let l := {| tl_flagKey := flagKey;
              tl_defaultValue := param_default defaultValue (JNum 100);
              tl_divisor := param_default divisor (JNum 1) |} in
  flagKey ∈ object_prototype_functions ->
  setcpmFlag flagKey defaultValue divisor w0 = Ok (w0', pat) ->
  let w1 := run after w0' in
  let store := (current <$> settings) ∪ flags w1 in
  ldClient w0 <> None ->
  tempoListeners w0 !! flagKey = None ->
  (forall l', l' ∈ tempo_handlers w1 ->
     change_names settings (tl_flagKey l') = true ->
     exists cpm', getValue store l' = Ok cpm') ->
  exists pre post cpm,
    getValue store l = Ok cpm
    /\ effects (deliver (Change settings) w1)
       = effects w1 ++ pre
           ++ tempo_effect (global_setcpm w1) (global_setCpm w1) cpm
           :: post.
Proof.
  intros w0 l Hin Hret w1 store Hc Hk Hcalm.
  apply (registered_listener_reacts setcpm setCpm before after flagKey
           defaultValue divisor settings w0' pat Hret Hc Hk); [| done].
  apply (change_names_inherited _ _ (JFun flagKey)). by apply inherited_function.
Qed.

End ModuleRuns.

(* ===================================================================== *)
(** ** The further properties at work                                     *)
(* ===================================================================== *)

Section MoreExamples.
#[local] Existing Instance Reference.host.
#[local] Existing Instance Reference.engine.

(** A scale is read, read again, and a number is read in between. *)
Lemma flag_parses_scale_once :
  flag_session "scale" (JStr "c:major")
    [ ({["scale" := JStr "<g:minor>"]}, Reference.cycle0);
      ({["scale" := JStr "<g:minor>"]}, Reference.cycle0);
      ({["scale" := JNum 3]}, Reference.cycle0);
      ({["scale" := JStr "<g:minor>"]}, Reference.cycle0) ]
    flag_new
  = ({| cachedValue := Some "<g:minor>";
        cachedPattern := Some (Reference.pure (JStr "<g:minor>")) |},
     [CallMini "<g:minor>"]).
Proof.
  apply (flag_parses_accepted_once "scale" (JStr "c:major")
           ({["scale" := JStr "<g:minor>"]}, Reference.cycle0)).
  - reflexivity.
  - reflexivity.
  - reflexivity.
  - repeat constructor; (by left) || (by right).
Defined.

(** A scale whose bracket is not closed is read twice. *)
Lemma flag_reparses_unclosed_bracket :
  flag_session "scale" (JStr "c:major")
    [ ({["scale" := JStr "<g:minor"]}, Reference.cycle0);
      ({["scale" := JStr "<g:minor"]}, Reference.cycle0) ]
    flag_new
  = (flag_new,
     [CallMini "<g:minor"; ConsoleError (flag_parse_error "scale");
      CallMini "<g:minor"; ConsoleError (flag_parse_error "scale")]).
Proof.
  apply (flag_reparses_rejected "scale" (JStr "c:major")
           [ ({["scale" := JStr "<g:minor"]}, Reference.cycle0);
             ({["scale" := JStr "<g:minor"]}, Reference.cycle0) ]
           "<g:minor" flag_new).
  - apply flag_new_valid.
  - reflexivity.
  - reflexivity.
  - repeat constructor.
Defined.

(** A kit with another bank and a delay, on an event that has a bank. *)
Lemma drumKit_bank_and_delay :
  exists payload,
    drumKit_hap {["kit" := JObj {["bank" := JStr "RolandTR909"; "delay" := JNum 0.5]}]}
      "kit" JUndefined (Reference.hap_of {["s" := JStr "bd"; "bank" := JStr "LinnDrum"]})
    = Ok (with_value (Reference.hap_of {["s" := JStr "bd"; "bank" := JStr "LinnDrum"]})
            (JObj payload))
    /\ payload !! "bank" = Some (JStr "RolandTR909")
    /\ payload !! "delay" = Some (JNum 0.5)
    /\ payload !! "s" = Some (JStr "bd").
Proof.
  destruct (drumKit_sets_bank_merges_rest
              {["kit" := JObj {["bank" := JStr "RolandTR909"; "delay" := JNum 0.5]}]}
              "kit" JUndefined
              (Reference.hap_of {["s" := JStr "bd"; "bank" := JStr "LinnDrum"]})
              (JNum 1))
    as (payload & Hok & Hbank & _ & _ & Hrest);
    [reflexivity | reflexivity | reflexivity |].
  exists payload. split; [exact Hok |]. split; [by rewrite Hbank |].
  split; by rewrite Hrest.
Defined.

(** A bass bundle with a sound, a filter and a room, on an event that has
    a sound and a filter. *)
Lemma bassSound_lpf_and_room :
  exists payload,
    bassSound_hap
      {["bass" := JObj {["sound" := JStr "sawtooth"; "lpf" := JNum 900;
                         "room" := JNum 0.5]}]}
      "bass" JUndefined
      (Reference.hap_of {["note" := JStr "e2"; "s" := JStr "piano"; "lpf" := JNum 500]})
    = Ok (with_value
            (Reference.hap_of {["note" := JStr "e2"; "s" := JStr "piano";
                                "lpf" := JNum 500]})
            (JObj payload))
    /\ payload !! "s" = Some (JStr "sawtooth")
    /\ payload !! "lpf" = Some (JNum 900)
    /\ payload !! "room" = Some (JNum 0.5)
    /\ payload !! "note" = Some (JStr "e2")
    /\ payload !! "sound" = None.
Proof.
  destruct (sound_bundle_fields
              {["bass" := JObj {["sound" := JStr "sawtooth"; "lpf" := JNum 900;
                                 "room" := JNum 0.5]}]}
              "bass" JUndefined
              (Reference.hap_of {["note" := JStr "e2"; "s" := JStr "piano";
                                  "lpf" := JNum 500]}))
    as (Hbass & _); [reflexivity |].
  destruct (Hbass eq_refl (JNum 1) eq_refl)
    as (payload & Hok & Hs & Hlpf & Hsound & Hrest).
  exists payload. split; [exact Hok |].
  split; [apply Hs; split; [reflexivity | discriminate] |].
  split; [apply Hlpf; split; [reflexivity | discriminate] |].
  split; [| split; [| by rewrite Hsound]].
  - rewrite Hrest; [reflexivity |].
    rewrite !not_elem_of_cons; repeat split; try done; apply not_elem_of_nil.
  - rewrite Hrest; [reflexivity |].
    rewrite !not_elem_of_cons; repeat split; try done; apply not_elem_of_nil.
Defined.

(** A kit whose gain is an object with members [valueOf] and [toString]
    that are numbers: the multiplication throws. *)
Lemma drumKit_throws_on_object_gain :
  exists e,
    drumKit_hap_on
      (JObj {["gain" := JObj {["valueOf" := JNum 1; "toString" := JNum 1]}]})
      (Reference.hap_of {["s" := JStr "bd"]}) = Throw e.
Proof.
  apply (proj1 (merges_throw_iff
                  (JObj {["gain" := JObj {["valueOf" := JNum 1; "toString" := JNum 1]}]})
                  (Reference.hap_of {["s" := JStr "bd"]}))).
  right. right. right. eexists. reflexivity.
Defined.

(** A pattern whose events carry [null]. *)
Lemma drumKit_throws_on_null_payload :
  exists e,
    drumKit ∅ (Reference.pure JNull) "kit" JUndefined Reference.cycle0 = Throw e.
Proof.
  refine (proj1 (merges_abort_on_bad_payload ∅ (Reference.pure JNull) "kit"
                   JUndefined Reference.cycle0
                   [{| whole := Some Reference.unit_span;
                       part := Reference.unit_span; value := JNull |}]
                   {| whole := Some Reference.unit_span;
                      part := Reference.unit_span; value := JNull |}
                   eq_refl _ eq_refl)).
  apply list_elem_of_here.
Defined.

(** Organ and piano are not in the registry of the guide; original is. *)
Lemma lead_fallback_organ_piano :
  lead_session "leadArrangement" (JStr "original") Reference.lead_variations
    [ ({["leadArrangement" := JStr "organ"]}, Reference.cycle0);
      ({["leadArrangement" := JStr "organ"]}, Reference.cycle0);
      ({["leadArrangement" := JStr "piano"]}, Reference.cycle0) ]
    lead_new
  = ({| cachedVariationKey := JStr "piano";
        cachedLeadPattern := LPattern (Reference.pure (JStr "sawtooth")) |},
     [CallFactory "original"; CallFactory "original"]).
Proof.
  apply (lead_fallback_rebuilt_per_name "leadArrangement" "original" "organ" "piano"
           Reference.lead_variations
           (fun _ => Ok (LPattern (Reference.pure (JStr "sawtooth")))));
    (reflexivity || discriminate).
Defined.

(** The same registry with a default that is not in it. *)
Lemma lead_unknown_organ :
  lead_session "leadArrangement" (JStr "missing") Reference.lead_variations
    [ ({["leadArrangement" := JStr "techno"]}, Reference.cycle0);
      ({["leadArrangement" := JStr "organ"]}, Reference.cycle0);
      ({["leadArrangement" := JStr "techno"]}, Reference.cycle0) ]
    lead_new
  = ({| cachedVariationKey := JStr "techno";
        cachedLeadPattern := LPattern (Reference.pure (JStr "supersaw")) |},
     [CallFactory "techno";
      ConsoleWarn (no_variation_message "organ" "missing")]).
Proof.
  refine (proj2 (lead_unknown_keeps_cache "leadArrangement" "techno" "organ"
                   "missing" (JStr "missing") Reference.lead_variations
                   (fun _ => Ok (LPattern (Reference.pure (JStr "supersaw"))))
                   (LPattern (Reference.pure (JStr "supersaw")))
                   _ _ _ _ _ _ _ _ _ _ _ _ _));
    reflexivity.
Defined.

(** The selection [toString] with the registry of the guide: the query
    calls the inherited method and throws; the default is not used. *)
Lemma lead_toString_throws :
  let r :=
    getLeadArrangement {["leadArrangement" := JStr "toString"]} "leadArrangement"
      (JStr "original") Reference.lead_variations lead_new Reference.cycle0 in
  (exists e, r.1.1 = Throw e)
  /\ cachedVariationKey r.1.2 = JStr "toString"
  /\ r.2 = [CallFactory "toString"].
Proof.
  apply (lead_inherited_name_throws "leadArrangement" "toString" (JStr "original")
           Reference.lead_variations {["leadArrangement" := JStr "toString"]}
           lead_new Reference.cycle0).
  - apply list_elem_of_further, list_elem_of_here.
  - reflexivity.
  - reflexivity.
  - discriminate.
Defined.

(** The arrangement [techno] is cached and the selection changes to a
    variation whose factory throws: the query throws, and the next query
    answers with the events of [techno]. *)
Lemma lead_broken_serves_techno :
  let c := {| cachedVariationKey := JStr "techno";
              cachedLeadPattern := LPattern (Reference.pure (JStr "supersaw")) |} in
  let q : gmap string JsValue * State :=
    ({["leadArrangement" := JStr "broken"]}, Reference.cycle0) in
  let r1 :=
    getLeadArrangement q.1 "leadArrangement" (JStr "original")
      Reference.broken_variations c q.2 in
  let r2 :=
    getLeadArrangement q.1 "leadArrangement" (JStr "original")
      Reference.broken_variations r1.1.2 q.2 in
  r1.1.1 = Throw Reference.factory_error
  /\ r1.2 = [CallFactory "broken"]
  /\ r2.1.1 = Reference.pure (JStr "supersaw") Reference.cycle0
  /\ r2.2 = [].
Proof.
  intros c q r1 r2.
  destruct (lead_failed_build_serves_stale "leadArrangement" "broken" "broken"
              (JStr "original") Reference.broken_variations
              (fun _ => Throw Reference.factory_error) Reference.factory_error
              c q q)
    as (Hthrow & Hlog & Hnext);
    [reflexivity | reflexivity | reflexivity | reflexivity | discriminate |].
  split; [exact Hthrow |]. split; [exact Hlog |].
  fold r1 r2 in Hnext. by rewrite Hnext.
Defined.

(** The client is created and becomes ready with a tempo of 120. *)
Lemma ready_after_init :
  let w := run [CallInit "client-id"] (initial_world true false) in
  let w' := deliver (Ready {["globalTempo" := JNum 120]}) w in
  ldClient w <> None
  /\ flags w' !! "globalTempo" = Some (JNum 120)
  /\ effects w' = effects w
  /\ initPromise w' = Some Resolved.
Proof.
  split; [discriminate |].
  destruct (ready_merges_snapshot true false [CallInit "client-id"]
              {["globalTempo" := JNum 120]}) as (Hflags & Heff & Hres & _);
    [discriminate |].
  split; [by rewrite Hflags |]. split; [exact Heff | by apply Hres].
Defined.

(** The drums are switched off, and the melody flag is deleted. *)
Lemma change_read_by_toggle :
  let w := run [CallInit "client-id"] (initial_world true false) in
  let w' :=
    deliver (Change {["drumsEnabled" := {| current := JBool false; previous := JBool true |};
                      "melodyEnabled" := {| current := JUndefined; previous := JBool false |}]})
      w in
  ldClient w <> None
  /\ read_flag (flags w') "drumsEnabled" (JBool true) = JBool false
  /\ read_flag (flags w') "melodyEnabled" (JBool true) = JBool true.
Proof.
  split; [discriminate |].
  destruct (change_is_read_next true false [CallInit "client-id"]
              {["drumsEnabled" := {| current := JBool false; previous := JBool true |};
                "melodyEnabled" := {| current := JUndefined; previous := JBool false |}]})
    as (Hread & _); [discriminate |].
  split.
  - by rewrite (Hread "drumsEnabled" {| current := JBool false; previous := JBool true |}).
  - by rewrite (Hread "melodyEnabled"
                  {| current := JUndefined; previous := JBool false |}).
Defined.

(** A store with a tempo, then calls and a failure. *)
Lemma store_kept_by_calls :
  let w :=
    run [CallInit "client-id"; Emit (Ready {["globalTempo" := JNum 120]})]
      (initial_world true false) in
  let actions :=
    [CallSetcpmFlag "globalTempo" (JNum 110) (JNum 4); CallInit "other-id";
     Emit (Failed (JStr "network"))] in
  Forall (fun a => writes_store a = false) actions
  /\ flags (run actions w) = flags w.
Proof.
  split; [by repeat constructor |].
  apply store_written_by_events_only. by repeat constructor.
Defined.

(** [setcpmFlag('t', 110, 4)], then [setcpmFlag('t', 110, 2)]: the
    listener divides by 4. *)
Lemma tempo_listener_keeps_first_divisor :
  exists w0' pat,
    setcpmFlag "t" (JNum 110) (JNum 4)
      (run [CallInit "client-id"] (initial_world true false)) = Ok (w0', pat)
    /\ let w1 := run [CallSetcpmFlag "t" (JNum 110) (JNum 2)] w0' in
       filter (fun l' => tl_flagKey l' = "t") (tempo_handlers w1)
       = [{| tl_flagKey := "t"; tl_defaultValue := JNum 110; tl_divisor := JNum 4 |}]
       /\ effects (deliver (Reference.change_of "t" (JNum 110) (JNum 120)) w1)
          = effects w1 ++ [CallSetcpm (JNum 30)].
Proof.
  eexists _, _. split; [reflexivity |].
  split; [| reflexivity].
  refine (proj1 (tempo_listener_first_call_wins true false [CallInit "client-id"]
                   [CallSetcpmFlag "t" (JNum 110) (JNum 2)] "t" (JNum 110) (JNum 4)
                   _ setcpmFlag_pattern _ _ _)).
  - reflexivity.
  - discriminate.
  - reflexivity.
Defined.

(** A listener for [t], and a change of another key. *)
Lemma change_of_scale_keeps_tempo :
  let w :=
    run [CallInit "client-id"; CallSetcpmFlag "t" (JNum 110) (JNum 4)]
      (initial_world true false) in
  effects (deliver (Reference.change_of "scale" (JStr "c") (JStr "d")) w) = effects w.
Proof.
  apply (change_of_other_keys_runs_no_tempo true false
           [CallInit "client-id"; CallSetcpmFlag "t" (JNum 110) (JNum 4)]).
  intros l Hl.
  assert (tempo_handlers
            (run [CallInit "client-id"; CallSetcpmFlag "t" (JNum 110) (JNum 4)]
               (initial_world true false))
          = [{| tl_flagKey := "t"; tl_defaultValue := JNum 110; tl_divisor := JNum 4 |}])
    as Heq by reflexivity.
  rewrite Heq in Hl. apply list_elem_of_singleton in Hl as ->.
  split; reflexivity.
Defined.

(** Listeners for [t] and for [swing], and a change of [t] to 120: the
    listener of [t] runs, the other one does not. *)
Lemma change_of_t_runs_its_listener :
  let w :=
    run [CallInit "client-id"; CallSetcpmFlag "t" (JNum 110) (JNum 4);
         CallSetcpmFlag "swing" (JNum 90) (JNum 1)]
      (initial_world true false) in
  effects (deliver (Reference.change_of "t" (JNum 110) (JNum 120)) w)
  = effects w ++ [CallSetcpm (JNum 30)].
Proof.
  intros w.
  destruct (change_runs_listeners_in_order true false
              [CallInit "client-id"; CallSetcpmFlag "t" (JNum 110) (JNum 4);
               CallSetcpmFlag "swing" (JNum 90) (JNum 1)]
              {["t" := {| current := JNum 120; previous := JNum 110 |}]})
    as (cpms & Hall & Heff).
  - intros l Hl. apply list_elem_of_filter in Hl as [_ Hl].
    apply elem_of_cons in Hl as [-> | Hl]; [eexists; reflexivity |].
    apply list_elem_of_singleton in Hl as ->. eexists. reflexivity.
  - apply Forall2_cons_inv_l in Hall as (cpm & cpms' & Hcpm & Hnil & ->).
    apply Forall2_nil_inv_l in Hnil as ->.
    injection Hcpm as <-. exact Heff.
Defined.

(** A listener for the key [constructor], and a change of another key: the
    listener runs. *)
Lemma constructor_listener_runs_on_scale_change :
  exists w0' pat,
    setcpmFlag "constructor" (JNum 110) (JNum 4)
      (run [CallInit "client-id"] (initial_world true false)) = Ok (w0', pat)
    /\ exists pre post cpm,
        effects (deliver (Reference.change_of "scale" (JStr "c") (JStr "d")) w0')
        = effects w0' ++ pre ++ CallSetcpm cpm :: post.
Proof.
  eexists _, _. split; [reflexivity |].
  destruct (inherited_key_listener_runs_on_every_change true false
              [CallInit "client-id"] [] "constructor" (JNum 110) (JNum 4)
              {["scale" := {| current := JStr "d"; previous := JStr "c" |}]})
    with (w0' := (register_tempo
                    {| tl_flagKey := "constructor"; tl_defaultValue := JNum 110;
                       tl_divisor := JNum 4 |}
                    (add_effect (CallSetcpm (JNum PrimFloat.nan))
                       (run [CallInit "client-id"] (initial_world true false)))))
         (pat := setcpmFlag_pattern)
    as (pre & post & cpm & _ & Heff).
  - apply list_elem_of_here.
  - reflexivity.
  - discriminate.
  - reflexivity.
  - intros l' Hl' _. apply list_elem_of_singleton in Hl' as ->.
    eexists. reflexivity.
  - by exists pre, post, cpm.
Defined.

(** Ready, then a late failure. *)
Lemma promise_resolved_stays_resolved :
  let w := run [CallInit "client-id"; Emit (Ready ∅)] (initial_world true false) in
  initPromise w = Some Resolved
  /\ initPromise (run [Emit (Failed (JStr "network"))] w) = Some Resolved.
Proof.
  split; [reflexivity |].
  apply (init_promise_settles_once true false
           [CallInit "client-id"; Emit (Ready ∅)] [Emit (Failed (JStr "network"))]).
  - reflexivity.
  - discriminate.
Defined.

(** [setcpmFlag('t', 110, 4)] before the client exists, then the client,
    then the same call again. *)
Lemma tempo_key_t_never_hooked :
  exists w' pat,
    setcpmFlag "t" (JNum 110) (JNum 4) (initial_world true false) = Ok (w', pat)
    /\ listener_count "t"
         (run [CallInit "client-id"; CallSetcpmFlag "t" (JNum 110) (JNum 4)] w')
       = 0.
Proof.
  eexists _, _. split; [reflexivity |].
  apply (tempo_key_met_without_client_is_never_hooked
           [CallInit "client-id"; CallSetcpmFlag "t" (JNum 110) (JNum 4)]
           "t" (JNum 110) (JNum 4) (initial_world true false) _ setcpmFlag_pattern);
    reflexivity.
Defined.

End MoreExamples.
